(** * fix_font_family_names.py: a shallow embedding and its properties

    The script loads a font with fontTools, derives (or is given) a family
    name, strips weight words from a derived name, writes the name into the
    naming records with nameID 1 and 16, and saves the font.

    Python values are modelled as follows:
    - a [str] is the list of its code points ([list N]);
    - a [bytes] object is a [list byte];
    - [None] / a value is [option];
    - a call that may raise returns a [result];
    - the files a call can see are threaded explicitly through it.

    fontTools itself is not part of the repository.  What the script needs
    from it (codecs, the platform encoding table, [NameRecord.toUnicode],
    opening and saving a font) is kept as the interfaces [Codecs] and
    [FontFiles], and what [print] does with a line as the interface
    [Stdout]; the parts of [NameRecord] and [table__n_a_m_e] whose
    behaviour the script depends on record by record ([isUnicode],
    [setName], [toBytes]) are written out.  The module [Py] implements
    the interfaces for a part of CPython and fontTools that is enough to
    run the script on the fonts of [Samples]. *)

From Stdlib Require Import Strings.String Strings.Ascii Strings.Byte.
From stdpp Require Import base numbers option list sorting gmap.

Set Warnings "-clear-no-such-hyp".

Open Scope N_scope.
Open Scope list_scope.

(** ** Python [str] and [bytes] *)

(** A [str]: the sequence of its Unicode code points. *)
Abbreviation pystr := (list N).
(** A [bytes] object. *)
Abbreviation bytes := (list byte).

(** A string literal of the script, as a [str] (ASCII literals only). *)
Definition str (s : String.string) : pystr :=
  map N_of_ascii (list_ascii_of_string s).

(** The same literal as [bytes]. *)
Definition bytes_lit (s : String.string) : bytes :=
  list_byte_of_string s.

(** Python truthiness of a [str]: the empty string is falsy. *)
Definition str_truthy (s : pystr) : bool :=
  match s with [] => false | _ :: _ => true end.

(** Truthiness of a value that is [None] or a [str] ([if not x] in the
    script): [None] and the empty string are both falsy. *)
Definition truthy (x : option pystr) : bool :=
  match x with None => false | Some s => str_truthy s end.

(** [s.startswith(p)]. *)
Fixpoint startswith (p s : pystr) : bool :=
  match p, s with
  | [], _ => true
  | _ :: _, [] => false
  | a :: p', b :: s' => (a =? b) && startswith p' s'
  end.

(** [p in s]: [p] occurs in [s] as a substring. *)
Fixpoint contains (p s : pystr) : bool :=
  startswith p s ||
  match s with
  | [] => false
  | _ :: s' => contains p s'
  end.

(** [s.replace(old, new)] for a non-empty [old]: scanning from the left,
    every occurrence of [old] that does not overlap an earlier replaced
    one is replaced.  [skip] counts the characters of the occurrence found
    last that are still to be passed over. *)
Fixpoint replace_from (old new s : pystr) (skip : nat) : pystr :=
  match s with
  | [] => []
  | c :: s' =>
      match skip with
      | S k => replace_from old new s' k
      | O =>
          if startswith old s
          then new ++ replace_from old new s' (length old - 1)
          else c :: replace_from old new s' 0
      end
  end.

(** [s.replace(old, new)].  For the empty pattern Python puts [new]
    before every character and at the end. *)
Definition replace (old new s : pystr) : pystr :=
  match old with
  | [] => new ++ flat_map (fun c => c :: new) s
  | _ :: _ => replace_from old new s 0
  end.

(** [str.isspace] for one character, as CPython's [_PyUnicode_IsWhitespace]
    has it. *)
Definition isspace (c : N) : bool :=
  ((0x09 <=? c) && (c <=? 0x0D)) || ((0x1C <=? c) && (c <=? 0x20)) ||
  (c =? 0x85) || (c =? 0xA0) || (c =? 0x1680) ||
  ((0x2000 <=? c) && (c <=? 0x200A)) ||
  (c =? 0x2028) || (c =? 0x2029) || (c =? 0x202F) || (c =? 0x205F) ||
  (c =? 0x3000).

(** [s.lstrip()]. *)
Fixpoint lstrip (s : pystr) : pystr :=
  match s with
  | [] => []
  | c :: s' => if isspace c then lstrip s' else s
  end.

(** [s.rstrip()]. *)
Definition rstrip (s : pystr) : pystr := rev (lstrip (rev s)).

(** [s.strip()]. *)
Definition strip (s : pystr) : pystr := rstrip (lstrip s).

(** ** Weight tokens (lines 56-62) *)

(** The list literal of line 58. *)
Definition WEIGHTS : list pystr :=
  [str "Regular"; str "Bold"; str "Italic"; str "Medium"; str "Light";
   str "Black"; str "SemiBold"; str "ExtraBold"; str "ExtraLight";
   str "Thin"].

(** The body of the loop of line 58, for one [weight] (lines 59-62). *)
Definition strip_weight (family_name weight : pystr) : pystr :=
  if contains weight family_name
  then strip (replace (str "-" ++ weight) []
                (replace (str " " ++ weight) [] family_name))
  else family_name.

(** The loop of lines 58-62. *)
Definition strip_weight_tokens (family_name : pystr) : pystr :=
  foldl strip_weight family_name WEIGHTS.

(** ** Exceptions *)

(** A raised exception: its class name and what [str(e)] gives.  The
    exceptions of the model are instances of [Exception], as those of
    fontTools, of the codecs and of [print] are: a bare [except] and
    [except Exception] both catch them. *)
Inductive exn : Type :=
  Exception (kind : String.string) (message : pystr).

Definition exn_str (e : exn) : pystr :=
  match e with Exception _ message => message end.

(** The outcome of a call that may raise. *)
Inductive result (A : Type) : Type :=
| Ok (a : A)
| Raise (e : exn).
Arguments Ok {A} a.
Arguments Raise {A} e.

#[export] Instance result_ret : MRet result := fun A a => Ok a.
#[export] Instance result_bind : MBind result := fun A B f m =>
  match m with
  | Ok a => f a
  | Raise e => Raise e
  end.

(** ** Naming records (fontTools' [NameRecord]) *)

(** The value of [record.string]: [bytes] as read from a font file, a
    [str] once [setName] was given one. *)
Inductive pyval : Type :=
| PBytes (b : bytes)
| PStr (s : pystr).

Record NameRecord : Type := makeName {
  string : pyval;
  nameID : Z;
  platformID : Z;
  platEncID : Z;
  langID : Z
}.

(** The tuple [setName] and [getName] look a record up by. *)
Definition name_key (record : NameRecord) : Z * Z * Z * Z :=
  (nameID record, platformID record, platEncID record, langID record).

(** [record.string = v]. *)
Definition set_string (v : pyval) (record : NameRecord) : NameRecord :=
  makeName v (nameID record) (platformID record) (platEncID record)
    (langID record).

(** [NameRecord.isUnicode]:
    [platformID == 0 or (platformID == 3 and platEncID in [0, 1, 10])]. *)
Definition isUnicode (record : NameRecord) : bool :=
  (platformID record =? 0)%Z ||
  ((platformID record =? 3)%Z &&
   bool_decide (platEncID record ∈ [0; 1; 10]%Z)).

(** [table__n_a_m_e.setName(string, nameID, platformID, platEncID, langID)]:
    [getName] returns the first record with that tuple and its [string] is
    assigned; when there is none a new record is appended. *)
Fixpoint setName (v : pyval) (k : Z * Z * Z * Z) (names : list NameRecord)
  : list NameRecord :=
  match names with
  | [] => [makeName v k.1.1.1 k.1.1.2 k.1.2 k.2]
  | record :: rest =>
      if bool_decide (name_key record = k)
      then set_string v record :: rest
      else record :: setName v k rest
  end.

(** A loaded font, as far as the script looks at it: what reading its
    ['name'] table gives.  The library reads a table when it is first
    asked for, so this is the list of records, or the exception the
    access raises: KeyError for a font that has no ['name'] table, and
    whatever the library raises for a table it cannot make records of. *)
Record TTFont : Type := mkFont {
  name_table : result (list NameRecord)
}.

(** [KeyError('name')], whose [str] is the key in quotes. *)
Definition KeyError_name : exn := Exception "KeyError" (str "'name'").

(** [font['name'].names]. *)
Definition font_names (font : TTFont) : result (list NameRecord) :=
  name_table font.

(** ** What the script uses of Python's codecs and of fontTools *)

(** Python's codecs and the two methods of [NameRecord] that rest on
    them. *)
Class Codecs : Type := {
  (** [b.decode(codec)]; [None] when it raises. *)
  decode : pystr -> bytes -> option pystr;
  (** [s.encode(codec)]; [None] when it raises. *)
  encode : pystr -> pystr -> option bytes;
  (** [encodingTools.getEncoding(platformID, platEncID, langID, 'ascii')]:
      the codec name [NameRecord.getEncoding()] returns. *)
  getEncoding : Z -> Z -> Z -> pystr;
  (** [NameRecord.toUnicode()], which may raise UnicodeDecodeError. *)
  toUnicode : NameRecord -> result pystr
}.

(** Opening and saving a font. *)
Class FontFiles : Type := {
  (** The files a run can see and change. *)
  FS : Type;
  (** [TTFont(path)]. *)
  TTFont_open : FS -> pystr -> result TTFont;
  (** [font.save(path)]: whether it raised, and the files afterwards. *)
  TTFont_save : TTFont -> pystr -> FS -> result unit * FS
}.

(** Standard output. *)
Class Stdout : Type := {
  (** [print(line)]: the line is written, or the call raises and writes
      nothing, as it does with UnicodeEncodeError when the encoding of
      standard output has no bytes for a character of the line. *)
  print : pystr -> result unit
}.

Section Script.
Context `{Codecs} `{FontFiles} `{Stdout}.

(** [record.getEncoding()]. *)
Definition record_encoding (record : NameRecord) : pystr :=
  getEncoding (platformID record) (platEncID record) (langID record).

(** [NameRecord.toBytes()]: the bytes a record is saved with. *)
Definition toBytes (record : NameRecord) : option bytes :=
  match string record with
  | PBytes b => Some b
  | PStr s => encode (record_encoding record) s
  end.

(** A record as it is written to the font file: its [string] as bytes. *)
Definition to_disk (record : NameRecord) : option NameRecord :=
  b ← toBytes record; Some (set_string (PBytes b) record).

(** The records of a name table as they are written ([None] when a
    [string] cannot be encoded, in which case saving raises).  The order
    in which the library writes them is left open. *)
Definition compile_names (names : list NameRecord)
  : option (list NameRecord) :=
  mapM to_disk names.

(** [record.string.decode(codec)] under the script's bare [except]: a
    [str] has no [decode], which raises as well. *)
Definition string_decode (codec : pystr) (record : NameRecord)
  : option pystr :=
  match string record with
  | PBytes b => decode codec b
  | PStr _ => None
  end.

(** The loop of lines 20-35 (for [nid = 16]) and of lines 39-53 (for
    [nid = 1]): the value [family_name] is assigned before [break], [None]
    when the loop runs to its end, or the exception of [toUnicode]. *)
Fixpoint scan_names (nid : Z) (names : list NameRecord)
  : result (option pystr) :=
  match names with
  | [] => Ok None
  | record :: rest =>
      if bool_decide (nameID record = nid) then
        if isUnicode record then
          family_name ← toUnicode record; Ok (Some family_name)
        else
          match string_decode (str "utf-8") record with
          | Some family_name => Ok (Some family_name)
          | None =>
              match string_decode (str "latin-1") record with
              | Some family_name => Ok (Some family_name)
              | None => scan_names nid rest
              end
          end
      else scan_names nid rest
  end.

(** Lines 19-53: [family_name] before the clean-up. *)
Definition raw_family_name (names : list NameRecord)
  : result (option pystr) :=
  family_name ← scan_names 16 names;
  if negb (truthy family_name) then
    found ← scan_names 1 names;
    Ok (match found with Some s => Some s | None => family_name end)
  else Ok family_name.

(** Lines 56-62: the clean-up of a derived name. *)
Definition clean_family_name (family_name : option pystr) : option pystr :=
  match family_name with
  | Some s => if str_truthy s then Some (strip_weight_tokens s) else Some s
  | None => None
  end.

(** Lines 17-65: [family_name] when line 68 is reached. *)
Definition resolved_family_name (font : TTFont)
    (family_name_override : option pystr) : result (option pystr) :=
  if negb (truthy family_name_override) then
    names ← font_names font;
    family_name ← raw_family_name names;
    Ok (clean_family_name family_name)
  else Ok family_name_override.

(** Lines 71-80: the body of the inner loop for one [record], acting on
    the list [font['name'].names] the loop runs over. *)
Definition update_record (family_name : pystr) (nid : Z)
    (record : NameRecord) (names : list NameRecord) : list NameRecord :=
  if bool_decide (nameID record = nid) then
    if isUnicode record then
      setName (PStr family_name) (name_key record) names
    else
      match encode (record_encoding record) family_name with
      | Some encoded_name =>
          setName (PBytes encoded_name) (name_key record) names
      | None => names
      end
  else names.

(** [for record in names: body]: Python reads the list it iterates over
    by position, so a record changed by an earlier iteration is seen
    changed.  [i] is the position read next. *)
Fixpoint for_in_names (fuel i : nat)
    (body : NameRecord -> list NameRecord -> list NameRecord)
    (names : list NameRecord) : list NameRecord :=
  match fuel with
  | O => names
  | S fuel' =>
      match names !! i with
      | None => names
      | Some record => for_in_names fuel' (S i) body (body record names)
      end
  end.

(** Lines 69-80: both passes over the records.  The body never changes
    the number of records (lemma [for_in_names_foldl]), so [length names]
    steps reach the end of the list. *)
Definition apply_family_name (family_name : pystr)
    (names : list NameRecord) : list NameRecord :=
  foldl (fun names nid =>
           for_in_names (length names) 0
             (update_record family_name nid) names)
        names [1; 16]%Z.

(** Lines 16-80: the name to return and the font as it is when [save] is
    called. *)
Definition update_font (font : TTFont)
    (family_name_override : option pystr)
  : result (option pystr * TTFont) :=
  family_name ← resolved_family_name font family_name_override;
  match family_name with
  | Some s =>
      if str_truthy s then
        names ← font_names font;
        Ok (family_name, mkFont (Ok (apply_family_name s names)))
      else Ok (family_name, font)
  | None => Ok (family_name, font)
  end.

(** Lines 4-84.  The result is what the call returns or raises, with the
    files as the call leaves them. *)
Definition fix_font_family_names (input_path output_path : pystr)
    (family_name_override : option pystr) (fs : FS)
  : result (option pystr) * FS :=
  match TTFont_open fs input_path with
  | Raise e => (Raise e, fs)
  | Ok font =>
      match update_font font family_name_override with
      | Raise e => (Raise e, fs)
      | Ok (family_name, font') =>
          match TTFont_save font' output_path fs with
          | (Raise e, fs') => (Raise e, fs')
          | (Ok _, fs') => (Ok family_name, fs')
          end
      end
  end.

(** [f"{family_name}"]: [None] is formatted as the text None. *)
Definition format_name (family_name : option pystr) : pystr :=
  match family_name with
  | Some s => s
  | None => str "None"
  end.

Definition USAGE : pystr :=
  str "Usage: python fix_font_family_names.py <input_font> <output_font> [family_name_override]".

(** What a run of the script leaves: the lines on standard output, the
    exit status, and the files. *)
Definition outcome : Type := list pystr * Z * FS.

Definition stdout_lines (o : outcome) : list pystr := o.1.1.
Definition exit_status (o : outcome) : Z := o.1.2.
Definition files_after (o : outcome) : FS := o.2.

(** [print(line); sys.exit(status)].  When [print] raises, the exception
    is caught by nothing: the interpreter writes the traceback to
    standard error and ends with status 1, whatever [status] is. *)
Definition print_and_exit (line : pystr) (status : Z) (fs : FS) : outcome :=
  match print line with
  | Ok _ => ([line], status, fs)
  | Raise _ => ([], 1%Z, fs)
  end.

(** Lines 99-101: the handler of [except Exception as e]. *)
Definition except_Exception (e : exn) (fs : FS) : outcome :=
  print_and_exit (str "ERROR:" ++ exn_str e) 1 fs.

(** Lines 86-101 for a given [sys.argv].  The [print] of line 98 stands
    inside the [try]: when it raises, the handler runs, after the font
    has been saved. *)
Definition main (argv : list pystr) (fs : FS) : outcome :=
  if (length argv <? 3)%nat then print_and_exit USAGE 1 fs
  else
    let input_path := default [] (argv !! 1%nat) in
    let output_path := default [] (argv !! 2%nat) in
    let family_name_override :=
      if (3 <? length argv)%nat then argv !! 3%nat else None in
    match fix_font_family_names input_path output_path
            family_name_override fs with
    | (Ok family_name, fs') =>
        let line := str "SUCCESS:" ++ format_name family_name in
        match print line with
        | Ok _ => ([line], 0%Z, fs')
        | Raise e => except_Exception e fs'
        end
    | (Raise e, fs') => except_Exception e fs'
    end.

End Script.

(** ** Notions the properties are stated with *)

Section Notions.
Context `{Codecs}.

(** What lines 23-35 make of one record of the nameID looked for: the
    value assigned to [family_name], [None] when both byte decodings fail
    (the loop goes on), or the exception of [toUnicode]. *)
Definition decoded_value (record : NameRecord) : result (option pystr) :=
  if isUnicode record then
    s ← toUnicode record; Ok (Some s)
  else
    Ok (match string_decode (str "utf-8") record with
        | Some s => Some s
        | None => string_decode (str "latin-1") record
        end).

(** The records with nameID [nid] before some position all fail both byte
    decodings. *)
Definition all_skipped (nid : Z) (names : list NameRecord) : Prop :=
  Forall (fun r => nameID r = nid → decoded_value r = Ok None) names.

(** [res] is what the first record with nameID [nid] that is not skipped
    gives. *)
Definition first_decoded (nid : Z) (names : list NameRecord)
    (res : result (option pystr)) : Prop :=
  ∃ pre record post,
    names = pre ++ record :: post ∧ all_skipped nid pre ∧
    nameID record = nid ∧ decoded_value record = res ∧ res ≠ Ok None.

(** The value lines 72-80 hand to [setName] for a record, in the pass
    for [nid]: the name itself for a Unicode record, the name in the
    record's own encoding otherwise; [None] when the record has another
    nameID or the name cannot be encoded (no call of [setName]). *)
Definition new_value (family_name : pystr) (nid : Z) (record : NameRecord)
  : option pyval :=
  if bool_decide (nameID record = nid) then
    if isUnicode record then Some (PStr family_name)
    else PBytes <$> encode (record_encoding record) family_name
  else None.

(** The record as the pass for [nid] aims to leave it. *)
Definition updated_for (family_name : pystr) (nid : Z)
    (record : NameRecord) : NameRecord :=
  match new_value family_name nid record with
  | Some v => set_string v record
  | None => record
  end.

(** The record [apply_family_name] aims at for [record]: the name itself
    in a Unicode record, the name in the record's own encoding otherwise,
    and the record as it is when the name cannot be encoded or the nameID
    is neither 1 nor 16. *)
Definition updated (family_name : pystr) (record : NameRecord)
  : NameRecord :=
  if bool_decide (nameID record ∈ [1; 16]%Z) then
    if isUnicode record then set_string (PStr family_name) record
    else
      match encode (record_encoding record) family_name with
      | Some encoded_name => set_string (PBytes encoded_name) record
      | None => record
      end
  else record.

(** [f] applied to the first record of every tuple that is not in [seen],
    the other records kept: [setName] finds the first record with a given
    tuple, so of several records that share their tuple only the first is
    changed. *)
Fixpoint first_changed (f : NameRecord -> NameRecord)
    (seen : list (Z * Z * Z * Z)) (names : list NameRecord)
  : list NameRecord :=
  match names with
  | [] => []
  | record :: rest =>
      (if bool_decide (name_key record ∈ seen) then record else f record)
      :: first_changed f (name_key record :: seen) rest
  end.

(** The data model's naming records are identified by their tuple: no two
    records of a table share it. *)
Definition distinct_keys (names : list NameRecord) : Prop :=
  NoDup (name_key <$> names).

(** The records with nameID 1 or 16. *)
Definition family_records (names : list NameRecord) : list NameRecord :=
  filter (fun r => nameID r ∈ [1; 16]%Z) names.

End Notions.

(** ** The clean-up seen from the end of a name

    For a name [base ++ t] whose part [base] holds no weight token, the
    loop of lines 58-62 works on the tail [t] alone.  The functions below
    run the loop on the tail and check, step by step, what is needed for
    that: the tail starts with a character that is no part of the token,
    so does what the first [replace] leaves of it, and what the second
    leaves does not end in whitespace. *)

(** [c not in s]. *)
Definition not_in (c : N) (s : pystr) : bool := negb (bool_decide (c ∈ s)).

(** The tail is empty or starts with a character that is not in [w]. *)
Definition head_outside (w t : pystr) : bool :=
  match t with
  | [] => true
  | c :: _ => not_in c w
  end.

(** The tail is empty or does not end in whitespace. *)
Definition ends_trimmed (t : pystr) : bool :=
  match rev t with
  | [] => true
  | c :: _ => negb (isspace c)
  end.

(** What the two calls of [replace] at line 61 make of the tail. *)
Definition tail_replaced (w t : pystr) : pystr :=
  replace (str "-" ++ w) [] (replace (str " " ++ w) [] t).

(** One step of the loop on the tail. *)
Definition tail_step (t w : pystr) : pystr :=
  if contains w t then tail_replaced w t else t.

(** The step for [w] on [base ++ t] stays within the tail. *)
Definition tail_ok (t w : pystr) : bool :=
  head_outside w t &&
  (if contains w t
   then head_outside w (replace (str " " ++ w) [] t) &&
        ends_trimmed (tail_replaced w t)
   else true).

(** The loop on the tail; [None] when a step does not stay within it. *)
Fixpoint tail_run (ws : list pystr) (t : pystr) : option pystr :=
  match ws with
  | [] => Some t
  | w :: ws' => if tail_ok t w then tail_run ws' (tail_step t w) else None
  end.

(** A weight token behind a space or a hyphen. *)
Definition weight_suffixes : list pystr :=
  sep ← [str " "; str "-"]; w ← WEIGHTS; [sep ++ w].

(** ** A model of CPython's codecs and of fontTools, to run the script

    [Py] implements [Codecs] and [FontFiles] for the codecs ascii,
    latin-1, utf-8 and utf-16-be (strict error handling, as the script
    uses them), the platform encoding table of
    [fontTools.misc.encodingTools], and a file system that maps a path to
    the font stored there.  The other codecs
    the table names (mac_roman, shift_jis, ...) are not modelled: here
    every call with one of them raises.  The fonts in the examples below
    only hold records of the four codecs. *)
Module Py.

(** ascii ([>= 128] cannot be encoded or decoded). *)
Definition ascii_encode (s : pystr) : option bytes :=
  mapM (fun c => if c <? 128 then Byte.of_N c else None) s.
Definition ascii_decode (b : bytes) : option pystr :=
  mapM (fun x => if Byte.to_N x <? 128 then Some (Byte.to_N x) else None) b.

(** latin-1: code points below 256 are the bytes. *)
Definition latin1_encode (s : pystr) : option bytes := mapM Byte.of_N s.
Definition latin1_decode (b : bytes) : option pystr :=
  Some (map Byte.to_N b).

Definition surrogate (c : N) : bool := (0xD800 <=? c) && (c <=? 0xDFFF).

(** utf-8. *)
Definition utf8_encode_char (c : N) : option (list N) :=
  if c <? 0x80 then Some [c]
  else if c <? 0x800 then Some [0xC0 + c / 64; 0x80 + c mod 64]
  else if c <? 0x10000 then
    if surrogate c then None
    else Some [0xE0 + c / 4096; 0x80 + (c / 64) mod 64; 0x80 + c mod 64]
  else if c <? 0x110000 then
    Some [0xF0 + c / 262144; 0x80 + (c / 4096) mod 64;
          0x80 + (c / 64) mod 64; 0x80 + c mod 64]
  else None.

Definition utf8_encode (s : pystr) : option bytes :=
  units ← mapM utf8_encode_char s; mapM Byte.of_N (concat units).

Definition between (lo hi x : N) : bool := (lo <=? x) && (x <=? hi).

(** The well-formed byte sequences of the Unicode standard (no overlong
    forms, no surrogates, nothing above U+10FFFF). *)
Fixpoint utf8_decode_units (b : list N) : option pystr :=
  match b with
  | [] => Some []
  | b0 :: r0 =>
      if b0 <? 0x80 then cons b0 <$> utf8_decode_units r0
      else if between 0xC2 0xDF b0 then
        match r0 with
        | b1 :: r1 =>
            if between 0x80 0xBF b1
            then cons ((b0 - 0xC0) * 64 + (b1 - 0x80)) <$> utf8_decode_units r1
            else None
        | _ => None
        end
      else if between 0xE0 0xEF b0 then
        match r0 with
        | b1 :: b2 :: r2 =>
            if between (if b0 =? 0xE0 then 0xA0 else 0x80)
                       (if b0 =? 0xED then 0x9F else 0xBF) b1
               && between 0x80 0xBF b2
            then cons ((b0 - 0xE0) * 4096 + (b1 - 0x80) * 64 + (b2 - 0x80))
                   <$> utf8_decode_units r2
            else None
        | _ => None
        end
      else if between 0xF0 0xF4 b0 then
        match r0 with
        | b1 :: b2 :: b3 :: r3 =>
            if between (if b0 =? 0xF0 then 0x90 else 0x80)
                       (if b0 =? 0xF4 then 0x8F else 0xBF) b1
               && between 0x80 0xBF b2 && between 0x80 0xBF b3
            then cons ((b0 - 0xF0) * 262144 + (b1 - 0x80) * 4096
                       + (b2 - 0x80) * 64 + (b3 - 0x80))
                   <$> utf8_decode_units r3
            else None
        | _ => None
        end
      else None
  end.

Definition utf8_decode (b : bytes) : option pystr :=
  utf8_decode_units (map Byte.to_N b).

(** utf-16-be. *)
Definition utf16be_encode_char (c : N) : option (list N) :=
  if c <? 0x10000 then
    if surrogate c then None else Some [c / 256; c mod 256]
  else if c <? 0x110000 then
    let hi := 0xD800 + (c - 0x10000) / 1024 in
    let lo := 0xDC00 + (c - 0x10000) mod 1024 in
    Some [hi / 256; hi mod 256; lo / 256; lo mod 256]
  else None.

Definition utf16be_encode (s : pystr) : option bytes :=
  units ← mapM utf16be_encode_char s; mapM Byte.of_N (concat units).

Fixpoint utf16be_decode_units (b : list N) : option pystr :=
  match b with
  | [] => Some []
  | h :: l :: r =>
      let u := h * 256 + l in
      if between 0xD800 0xDBFF u then
        match r with
        | h2 :: l2 :: r2 =>
            let v := h2 * 256 + l2 in
            if between 0xDC00 0xDFFF v
            then cons (0x10000 + (u - 0xD800) * 1024 + (v - 0xDC00))
                   <$> utf16be_decode_units r2
            else None
        | _ => None
        end
      else if between 0xDC00 0xDFFF u then None
      else cons u <$> utf16be_decode_units r
  | [_] => None
  end.

Definition utf16be_decode (b : bytes) : option pystr :=
  utf16be_decode_units (map Byte.to_N b).

Definition codec_is (codec : pystr) (names : list String.string) : bool :=
  bool_decide (codec ∈ map str names).

Definition py_decode (codec : pystr) (b : bytes) : option pystr :=
  if codec_is codec ["utf-8"; "utf_8"; "utf8"]%string then utf8_decode b
  else if codec_is codec ["latin-1"; "latin1"; "latin_1"]%string
  then latin1_decode b
  else if codec_is codec ["ascii"]%string then ascii_decode b
  else if codec_is codec ["utf_16_be"; "utf-16-be"]%string
  then utf16be_decode b
  else None.

Definition py_encode (codec : pystr) (s : pystr) : option bytes :=
  if codec_is codec ["utf-8"; "utf_8"; "utf8"]%string then utf8_encode s
  else if codec_is codec ["latin-1"; "latin1"; "latin_1"]%string
  then latin1_encode s
  else if codec_is codec ["ascii"]%string then ascii_encode s
  else if codec_is codec ["utf_16_be"; "utf-16-be"]%string
  then utf16be_encode s
  else None.

(** [fontTools.misc.encodingTools.getEncoding] with default ['ascii']. *)
Definition py_getEncoding (platformID platEncID langID : Z) : pystr :=
  str
  match platformID with
  | 0 => if bool_decide (0 ≤ platEncID ≤ 6)%Z then "utf_16_be" else "ascii"
  | 1 =>
      match platEncID with
      | 0 =>
          match langID with
          | 15 => "mac_iceland"
          | 17 => "mac_turkish"
          | 18 => "mac_croatian"
          | 24 | 25 | 26 | 27 | 28 | 36 | 38 | 39 | 40 => "mac_latin2"
          | 37 => "mac_romanian"
          | _ => "mac_roman"
          end
      | 1 => "x_mac_japanese_ttx"
      | 2 => "x_mac_trad_chinese_ttx"
      | 3 => "x_mac_korean_ttx"
      | 4 => "mac_arabic"
      | 5 => "mac_hebrew"
      | 6 => "mac_greek"
      | 7 => "mac_cyrillic"
      | 25 => "x_mac_simp_chinese_ttx"
      | 29 => "mac_latin2"
      | 35 => "mac_turkish"
      | 37 => "mac_iceland"
      | _ => "ascii"
      end
  | 2 =>
      match platEncID with
      | 0 => "ascii"
      | 1 => "utf_16_be"
      | 2 => "latin1"
      | _ => "ascii"
      end
  | 3 =>
      match platEncID with
      | 0 | 1 | 10 => "utf_16_be"
      | 2 => "shift_jis"
      | 3 => "gb2312"
      | 4 => "big5"
      | 5 => "euc_kr"
      | 6 => "johab"
      | _ => "ascii"
      end
  | _ => "ascii"
  end%Z%string.

Definition isascii (b : N) : bool :=
  between 0x20 0x7E b || bool_decide (b ∈ [0x09; 0x0A; 0x0D]).

(** [all(pe(x) if i % 2 == 0 else po(x) for i, x in enumerate(l))]. *)
Fixpoint all_alternating (pe po : N -> bool) (l : list N) : bool :=
  match l with
  | [] => true
  | x :: l' => pe x && all_alternating po pe l'
  end.

(** [l[1::2]]. *)
Fixpoint odd_items (l : list N) : list N :=
  match l with
  | _ :: x :: l' => x :: odd_items l'
  | _ => []
  end.

(** The repair [NameRecord.toUnicode] attempts on utf-16-be data of odd
    length. *)
Definition recover_odd (b : list N) : list N :=
  if bool_decide (last b = Some 0) then removelast b
  else if all_alternating isascii (N.eqb 0) b then 0 :: b
  else
    match b with
    | 0 :: rest =>
        if forallb isascii rest then flat_map (fun x => [0; x]) rest else b
    | _ => b
    end.

(** [NameRecord.toUnicode()] (errors='strict'). *)
Definition py_toUnicode (record : NameRecord) : result pystr :=
  let encoding := py_getEncoding (platformID record) (platEncID record)
                    (langID record) in
  let decoded :=
    match string record with
    | PStr s => Some s
    | PBytes b =>
        if bool_decide (encoding = str "utf_16_be") && Nat.odd (length b)
        then b' ← mapM Byte.of_N (recover_odd (map Byte.to_N b));
             py_decode encoding b'
        else py_decode encoding b
    end in
  match decoded with
  | Some s =>
      Ok (if all_alternating (N.eqb 0) isascii s then odd_items s else s)
  | None =>
      Raise (Exception "UnicodeDecodeError"
               (str "codec can't decode bytes"))
  end.

(** What a path holds: a font, or something that is not a font. *)
Inductive file : Type :=
| FontFile (font : TTFont)
| OtherFile (data : bytes).

(** [TTFont(path)]. *)
Definition py_open (fs : gmap (list N) file) (path : pystr)
  : result TTFont :=
  match fs !! path with
  | Some (FontFile font) => Ok font
  | Some (OtherFile _) =>
      Raise (Exception "TTLibError"
               (str "Not a TrueType or OpenType font (bad sfntVersion)"))
  | None =>
      Raise (Exception "FileNotFoundError"
               (str "[Errno 2] No such file or directory: '" ++ path
                ++ str "'"))
  end.

(** Python's order on [bytes]. *)
Fixpoint bytes_leb (a b : list N) : bool :=
  match a, b with
  | [], _ => true
  | _ :: _, [] => false
  | x :: a', y :: b' => (x <? y) || ((x =? y) && bytes_leb a' b')
  end.

Definition string_bytes (record : NameRecord) : list N :=
  match string record with
  | PBytes b => map Byte.to_N b
  | PStr s => s
  end.

(** [NameRecord.__lt__] (as [<=]): by platformID, platEncID, langID,
    nameID and the bytes, in this order. *)
Definition name_leb (a b : NameRecord) : bool :=
  let lex (x y : Z) (tail : bool) := ((x <? y) || ((x =? y) && tail))%Z in
  lex (platformID a) (platformID b)
    (lex (platEncID a) (platEncID b)
       (lex (langID a) (langID b)
          (lex (nameID a) (nameID b)
             (bytes_leb (string_bytes a) (string_bytes b))))).

End Py.

#[export] Instance PyCodecs : Codecs := {|
  decode := Py.py_decode;
  encode := Py.py_encode;
  getEncoding := Py.py_getEncoding;
  toUnicode := Py.py_toUnicode
|}.

(** [font.save(path)] in [Py]: the name table is compiled (records
    sorted, strings as bytes) and the font stored at [path]; when a string
    cannot be encoded the call raises and writes nothing.  A font whose
    name table was not read is stored as it is. *)
Definition py_save (font : TTFont) (path : pystr)
    (fs : gmap (list N) Py.file) : result unit * gmap (list N) Py.file :=
  match name_table font with
  | Raise _ => (Ok (), <[path := Py.FontFile font]> fs)
  | Ok names =>
      match compile_names names with
      | Some disk =>
          (Ok (),
           <[path := Py.FontFile
                       (mkFont (Ok (merge_sort Py.name_leb disk)))]> fs)
      | None =>
          (Raise (Exception "UnicodeEncodeError"
                    (str "codec can't encode characters")), fs)
      end
  end.

#[export] Instance PyFiles : FontFiles := {|
  FS := gmap (list N) Py.file;
  TTFont_open := Py.py_open;
  TTFont_save := py_save
|}.

(** [print] on a standard output with the given encoding and strict error
    handling: the line is encoded as a whole before anything is
    written. *)
Definition py_print (encoding line : pystr) : result unit :=
  match Py.py_encode encoding line with
  | Some _ => Ok ()
  | None =>
      Raise (Exception "UnicodeEncodeError"
               (str "codec can't encode characters"))
  end.

(** A standard output in UTF-8. *)
#[export] Instance PyStdout : Stdout := {| print := py_print (str "utf-8") |}.

(** A standard output in ASCII ([PYTHONIOENCODING=ascii]). *)
Definition AsciiStdout : Stdout := {| print := py_print (str "ascii") |}.

(** ** Fonts to run the script on *)

Module Samples.

(** [s.encode('utf_16_be')] for an ASCII literal. *)
Definition utf16 (s : pystr) : bytes :=
  default [] (Py.utf16be_encode s).

(** Records of the Windows platform (3, 1, English), which are Unicode
    records. *)
Definition win (nid : Z) (s : pystr) : NameRecord :=
  makeName (PBytes (utf16 s)) nid 3 1 1033.

(** A Macintosh record (Roman, English) for nameID 16 with no text. *)
Definition mac16_empty : NameRecord := makeName (PBytes []) 16 1 0 0.

(** A name table in the order fontTools writes it: an empty Macintosh
    preferred family, then the Windows family Fam and preferred family
    Pref. *)
Definition names_pref : list NameRecord :=
  [mac16_empty; win 1 (str "Fam"); win 16 (str "Pref")].

(** The name Café; its last character is U+00E9. *)
Definition cafe : pystr := str "Caf" ++ [0xE9].

(** A record of the ISO platform with encoding 0, which is 7-bit ASCII. *)
Definition iso1_cafe : NameRecord :=
  makeName (PBytes (bytes_lit "Cafe")) 1 2 0 0.

Definition names_cafe : list NameRecord :=
  [win 16 (str "Pref"); win 1 (str "Fam"); iso1_cafe].

(** A font whose only naming record is its full name (nameID 4). *)
Definition names_full_only : list NameRecord :=
  [win 4 (str "Some Font Regular")].

(** Family names made of one weight token behind a separator. *)
Definition names_semibold : list NameRecord := [win 1 (str " SemiBold")].
Definition names_hyphen_bold : list NameRecord := [win 1 (str "-Bold")].

(** The files before a run: the font at in.ttf, and notes.txt, which is
    not a font. *)
Definition files (names : list NameRecord) : gmap (list N) Py.file :=
  {[ str "in.ttf" := Py.FontFile (mkFont (Ok names));
     str "notes.txt" := Py.OtherFile (bytes_lit "hello") ]}.

End Samples.

(** * Properties *)

(** ** Python strings *)

Section Strings.
Implicit Types (p s old new a b : pystr) (c : N).

Lemma startswith_prefix p s : startswith p s = true ↔ p `prefix_of` s.
Proof.
  revert s. induction p as [|x p IH]; intros [|y s]; simpl.
  - split; [intros _; apply prefix_nil | done].
  - split; [intros _; apply prefix_nil | done].
  - split; [done | intros Hp; by apply prefix_nil_inv in Hp].
  - rewrite andb_true_iff, N.eqb_eq, IH. split.
    + intros [-> Hp]. by apply prefix_cons.
    + intros Hp. split; [by apply prefix_cons_inv_1 in Hp|
                         by apply prefix_cons_inv_2 in Hp].
Qed.

Lemma startswith_app p s : startswith p (p ++ s) = true.
Proof. apply startswith_prefix, prefix_app_r. done. Qed.

Lemma contains_infix p s :
  contains p s = true ↔ ∃ a b, s = a ++ p ++ b.
Proof.
  induction s as [|c s IH]; simpl.
  - rewrite orb_false_r, startswith_prefix. split.
    + intros [k Hk]. exists [], k. done.
    + intros (a & b & Hab). symmetry in Hab.
      apply app_eq_nil in Hab as [-> Hab].
      apply app_eq_nil in Hab as [-> _]. done.
  - rewrite orb_true_iff, startswith_prefix, IH. split.
    + intros [[k Hk] | (a & b & ->)].
      * exists [], k. done.
      * exists (c :: a), b. done.
    + intros ([|x a] & b & Hab).
      * left. exists b. done.
      * right. simpl in Hab. injection Hab as -> ->. eauto.
Qed.

Lemma replace_from_skip old new s k :
  replace_from old new s k = replace_from old new (drop k s) 0.
Proof.
  revert k. induction s as [|c s IH]; intros [|k]; simpl; done.
Qed.

(** The equations of [replace] for a non-empty pattern. *)
Lemma replace_match old new s :
  old ≠ [] → startswith old s = true →
  replace old new s = new ++ replace old new (drop (length old) s).
Proof.
  destruct old as [|x old]; [done|]. intros _ Hs.
  destruct s as [|c s]; [done|]. unfold replace. simpl.
  simpl in Hs. rewrite Hs. simpl. rewrite Nat.sub_0_r.
  by rewrite replace_from_skip.
Qed.

Lemma replace_no_match old new c s :
  old ≠ [] → startswith old (c :: s) = false →
  replace old new (c :: s) = c :: replace old new s.
Proof.
  destruct old as [|x old]; [done|]. intros _ Hs.
  unfold replace. simpl. simpl in Hs. by rewrite Hs.
Qed.

Lemma replace_nil old new : old ≠ [] → replace old new [] = [].
Proof. by destruct old. Qed.

(** A string the pattern does not occur in is returned as it is. *)
Lemma replace_absent old new s :
  old ≠ [] → contains old s = false → replace old new s = s.
Proof.
  intros Hold. induction s as [|c s IH]; intros Hc.
  - by apply replace_nil.
  - simpl in Hc. apply orb_false_iff in Hc as [Hs Hc].
    rewrite replace_no_match by done. by rewrite IH.
Qed.

(** The leftmost occurrence is replaced, and the scan goes on behind it. *)
Lemma replace_leftmost old new a b :
  old ≠ [] →
  (∀ i, (i < length a)%nat →
        startswith old (drop i (a ++ old ++ b)) = false) →
  replace old new (a ++ old ++ b) = a ++ new ++ replace old new b.
Proof.
  intros Hold. induction a as [|c a IH]; intros Hleft; simpl.
  - rewrite replace_match by (done || apply startswith_app).
    by rewrite drop_app_length.
  - rewrite replace_no_match; [|done|apply (Hleft 0%nat); simpl; lia].
    rewrite IH; [done|]. intros i Hi. apply (Hleft (S i)). simpl. lia.
Qed.

End Strings.

(** ** Weight tokens *)

Lemma strip_weight_eq name w :
  strip_weight name w =
    if contains w name
    then strip (replace (45 :: w) [] (replace (32 :: w) [] name))
    else name.
Proof. reflexivity. Qed.

(** A token that occurs neither behind a space nor behind a hyphen is not
    removed: only the trimming (of a name the token occurs in) remains. *)
Lemma strip_weight_untouched name w :
  contains (32 :: w) name = false → contains (45 :: w) name = false →
  strip_weight name w = if contains w name then strip name else name.
Proof.
  intros Hsp Hhy. rewrite strip_weight_eq.
  destruct (contains w name); [|done].
  rewrite (replace_absent (32 :: w)) by done.
  by rewrite (replace_absent (45 :: w)).
Qed.

(** The clean-up is not idempotent: removing " Thin" can put together a
    " Regular" that the step of Regular, which came first, never saw. *)
Example strip_weight_tokens_again :
  strip_weight_tokens (str "A Re Thingular") = str "A Regular" ∧
  strip_weight_tokens (str "A Regular") = str "A".
Proof. split; vm_compute; reflexivity. Qed.

(** C2.  [strip_weight_tokens] runs through the ten tokens in the order
    Regular, Bold, Italic, Medium, Light, Black, SemiBold, ExtraBold,
    ExtraLight, Thin.  For a token that occurs in the name it removes the
    occurrences of space-plus-token, then those of hyphen-plus-token, and
    trims the result; a name without the token is passed on unchanged.
    Removing a pattern deletes its leftmost occurrence and goes on behind
    it, and leaves a string without the pattern alone, so every occurrence
    is removed; a token that stands neither behind a space nor behind a
    hyphen is not removed.  The three examples of the specification
    hold. *)
Theorem strip_weight_tokens_spec :
  WEIGHTS = map str ["Regular"; "Bold"; "Italic"; "Medium"; "Light";
                     "Black"; "SemiBold"; "ExtraBold"; "ExtraLight";
                     "Thin"]%string ∧
  (∀ name, strip_weight_tokens name = foldl strip_weight name WEIGHTS) ∧
  (∀ name w,
     strip_weight name w =
       if contains w name
       then strip (replace (str "-" ++ w) [] (replace (str " " ++ w) [] name))
       else name) ∧
  (∀ sep w a b,
     (∀ i, (i < length a)%nat →
           startswith (sep :: w) (drop i (a ++ (sep :: w) ++ b)) = false) →
     replace (sep :: w) [] (a ++ (sep :: w) ++ b)
     = a ++ replace (sep :: w) [] b) ∧
  (∀ sep w s, contains (sep :: w) s = false → replace (sep :: w) [] s = s) ∧
  (∀ name w,
     contains (str " " ++ w) name = false →
     contains (str "-" ++ w) name = false →
     strip_weight name w = if contains w name then strip name else name) ∧
  strip_weight_tokens (str " Aria Sans Bold") = str "Aria Sans" ∧
  strip_weight_tokens (str "ArialBold") = str "ArialBold" ∧
  strip_weight_tokens (str "Aria-ExtraBold") = str "Aria".
Proof.
  split; [reflexivity|]. split; [reflexivity|]. split; [reflexivity|].
  split.
  { intros sep w a b Hleft.
    by rewrite (replace_leftmost (sep :: w) [] a b). }
  split.
  { intros sep w s Hs. by apply replace_absent. }
  split.
  { intros name w. apply strip_weight_untouched. }
  repeat split; vm_compute; reflexivity.
Qed.

(** In "Sans Bold-Italic" the leftmost " Bold" is at position 4; in
    "ArialBold " the token has no separator before it, so only the
    trailing space goes. *)
Lemma strip_weight_tokens_spec_witness :
  replace (str " Bold") [] (str "Sans" ++ str " Bold" ++ str "-Italic")
  = str "Sans" ++ replace (str " Bold") [] (str "-Italic") ∧
  strip_weight (str "ArialBold ") (str "Bold") = str "ArialBold".
Proof.
  destruct strip_weight_tokens_spec as (_ & _ & _ & Hleft & _ & Hkeep & _).
  split.
  - apply (Hleft 32 (str "Bold") (str "Sans") (str "-Italic")).
    intros i Hi.
    do 4 (destruct i as [|i]; [vm_compute; reflexivity|]).
    simpl in Hi. lia.
  - rewrite (Hkeep (str "ArialBold ") (str "Bold")); vm_compute; reflexivity.
Defined.

(** ** Scanning the records for a name *)

Section Scan.
Context `{Codecs}.
Implicit Types (names pre post : list NameRecord) (record r : NameRecord).

Lemma scan_names_cons nid record rest :
  scan_names nid (record :: rest) =
    if bool_decide (nameID record = nid) then
      match decoded_value record with
      | Ok None => scan_names nid rest
      | res => res
      end
    else scan_names nid rest.
Proof.
  simpl. unfold decoded_value. case_bool_decide; [|done].
  destruct (isUnicode record).
  - by destruct (toUnicode record).
  - destruct (string_decode (str "utf-8") record); [done|].
    by destruct (string_decode (str "latin-1") record).
Qed.

(** The loop returns [None] exactly when every record of the nameID is
    skipped. *)
Lemma scan_names_None nid names :
  scan_names nid names = Ok None ↔ all_skipped nid names.
Proof.
  unfold all_skipped. induction names as [|r names IH].
  - split; [intros _; constructor | done].
  - rewrite scan_names_cons, Forall_cons. case_bool_decide as Hid.
    + destruct (decoded_value r) as [[v|]|e] eqn:Hr.
      * split; [done|]. intros [Hd _]. by specialize (Hd Hid).
      * rewrite IH. split; [by split | by intros [_ ?]].
      * split; [done|]. intros [Hd _]. by specialize (Hd Hid).
    + rewrite IH. split; [by split | by intros [_ ?]].
Qed.

(** Otherwise it returns what the first record that is not skipped
    gives. *)
Lemma scan_names_first nid names res :
  res ≠ Ok None →
  scan_names nid names = res ↔ first_decoded nid names res.
Proof.
  intros Hres. induction names as [|r names IH].
  - split; [done|]. intros (pre & r & post & Hnames & _).
    by destruct pre.
  - rewrite scan_names_cons. split.
    + case_bool_decide as Hid.
      * destruct (decoded_value r) as [[v|]|e] eqn:Hr.
        -- intros <-. exists [], r, names. repeat split; try done.
           constructor.
        -- intros Hs. apply IH in Hs as (pre & r' & post & -> & Hpre & ? & ? & _).
           exists (r :: pre), r', post. repeat split; try done.
           by constructor.
        -- intros <-. exists [], r, names. repeat split; try done.
           constructor.
      * intros Hs. apply IH in Hs as (pre & r' & post & -> & Hpre & ? & ? & _).
        exists (r :: pre), r', post. repeat split; try done.
        by constructor.
    + intros ([|r0 pre] & r' & post & Hnames & Hpre & Hid & Hr & _);
        simplify_eq/=.
      * rewrite bool_decide_true by done.
        by destruct (decoded_value r') as [[v|]|e].
      * apply Forall_cons in Hpre as [Hr0 Hpre].
        assert (scan_names (nameID r') (pre ++ r' :: post)
                = decoded_value r') as Hrest.
        { apply IH. by exists pre, r', post. }
        case_bool_decide as Hid; [|done]. by rewrite (Hr0 Hid).
Qed.

(** C1, as the code has it.  Without an override the records are scanned
    in their order for nameID 16: records that fail both byte decodings are
    skipped and the first other record decides.  Its value is returned
    when it is not empty, whatever the nameID-1 records hold; a Unicode
    record whose decoding raises ends the run with that exception.  When
    no nameID-16 record gives a value, or the deciding one gives the empty
    string, the same scan is made for nameID 1 and its outcome returned;
    when that scan finds nothing either the result is what the nameID-16
    scan gave ([None] or the empty string). *)
Theorem raw_family_name_spec names :
  (∀ v, first_decoded 16 names (Ok (Some v)) → v ≠ [] →
        raw_family_name names = Ok (Some v)) ∧
  (∀ e, first_decoded 16 names (Raise e) →
        raw_family_name names = Raise e) ∧
  (∀ res,
     all_skipped 16 names ∨ first_decoded 16 names (Ok (Some [])) →
     first_decoded 1 names res → raw_family_name names = res) ∧
  (all_skipped 16 names → all_skipped 1 names →
   raw_family_name names = Ok None) ∧
  (first_decoded 16 names (Ok (Some [])) → all_skipped 1 names →
   raw_family_name names = Ok (Some [])).
Proof.
  unfold raw_family_name. repeat split.
  - intros v Hv Hne. apply scan_names_first in Hv; [|done].
    rewrite Hv. simpl. by destruct v.
  - intros e He. apply scan_names_first in He; [|done]. by rewrite He.
  - intros res H16 H1.
    assert (res ≠ Ok None) as Hres by (by destruct H1 as (?&?&?&?&?&?&?&?)).
    apply scan_names_first in H1; [|done].
    destruct H16 as [H16|H16].
    + apply scan_names_None in H16. rewrite H16. simpl. rewrite H1.
      by destruct res as [[v|]|e].
    + apply scan_names_first in H16; [|done]. rewrite H16. simpl.
      rewrite H1. by destruct res as [[v|]|e].
  - intros H16 H1. apply scan_names_None in H16, H1.
    rewrite H16. simpl. by rewrite H1.
  - intros H16 H1. apply scan_names_first in H16; [|done].
    apply scan_names_None in H1. rewrite H16. simpl. by rewrite H1.
Qed.

End Scan.

(** ** Writing the name into the records *)

Section Apply.
Context `{Codecs}.
Implicit Types (names rs : list NameRecord) (record r : NameRecord).
Implicit Types (family_name : pystr) (nid : Z) (v : pyval).

Lemma name_key_set_string v r : name_key (set_string v r) = name_key r.
Proof. done. Qed.

Lemma set_string_twice v r :
  set_string v (set_string v r) = set_string v r.
Proof. done. Qed.

(** What is written depends on a record's tuple only. *)
Lemma new_value_key family_name nid r r' :
  name_key r = name_key r' →
  new_value family_name nid r = new_value family_name nid r'.
Proof.
  unfold new_value, isUnicode, record_encoding, name_key.
  intros [= -> -> -> ->]. done.
Qed.

Lemma update_record_eq family_name nid r names :
  update_record family_name nid r names =
    match new_value family_name nid r with
    | Some v => setName v (name_key r) names
    | None => names
    end.
Proof.
  unfold update_record, new_value. case_bool_decide; [|done].
  destruct (isUnicode r); [done|].
  by destruct (encode (record_encoding r) family_name).
Qed.

Lemma update_record_key family_name nid r r' names :
  name_key r = name_key r' →
  update_record family_name nid r names
  = update_record family_name nid r' names.
Proof.
  intros Hk. rewrite !update_record_eq.
  by rewrite (new_value_key _ _ r r'), Hk.
Qed.

(** [setName] for the tuple of a record of the table appends nothing. *)
Lemma setName_keys v k names :
  k ∈ name_key <$> names →
  name_key <$> setName v k names = name_key <$> names.
Proof.
  induction names as [|r names IH]; simpl.
  - by intros ?%elem_of_nil.
  - intros Hk. case_bool_decide as Hr; [done|]. rewrite !fmap_cons.
    f_equal. apply IH. apply elem_of_cons in Hk as [->|]; done.
Qed.

Lemma update_record_keys family_name nid r names :
  r ∈ names →
  name_key <$> update_record family_name nid r names
  = name_key <$> names.
Proof.
  intros Hr. rewrite update_record_eq.
  destruct (new_value family_name nid r); [|done].
  apply setName_keys. by apply list_elem_of_fmap_2.
Qed.

Lemma foldl_update_record_keys family_name nid rs rs' names :
  name_key <$> rs = name_key <$> rs' →
  foldl (fun t r => update_record family_name nid r t) names rs
  = foldl (fun t r => update_record family_name nid r t) names rs'.
Proof.
  revert rs' names. induction rs as [|r rs IH]; intros [|r' rs'] names;
    rewrite ?fmap_cons; try done.
  intros Heq.
  assert (name_key r = name_key r' ∧ name_key <$> rs = name_key <$> rs')
    as [Hk Hrs] by (split; congruence).
  simpl. rewrite (update_record_key _ _ r r') by done. by apply IH.
Qed.

(** The loop over the live list does what a loop over the records it
    started with does: no step changes a tuple or the number of records,
    and the fuel [length names] is not used up before the end of the
    list. *)
Lemma for_in_names_foldl family_name nid fuel i names :
  (length names - i ≤ fuel)%nat →
  for_in_names fuel i (update_record family_name nid) names
  = foldl (fun t r => update_record family_name nid r t) names
      (drop i names).
Proof.
  revert i names. induction fuel as [|fuel IH]; intros i names Hfuel.
  - simpl. rewrite drop_ge by lia. done.
  - simpl. destruct (names !! i) as [r|] eqn:Hi.
    + rewrite (drop_S _ _ _ Hi). simpl.
      assert (r ∈ names) as Hr by (by eapply list_elem_of_lookup_2).
      pose proof (update_record_keys family_name nid r names Hr) as Hkeys.
      rewrite IH.
      * apply foldl_update_record_keys.
        rewrite !fmap_drop. by rewrite Hkeys.
      * apply (f_equal length) in Hkeys. rewrite !length_map in Hkeys.
        rewrite Hkeys. lia.
    + apply lookup_ge_None in Hi. rewrite drop_ge by lia. done.
Qed.

Lemma updated_for_eq family_name nid r v :
  new_value family_name nid r = Some v →
  updated_for family_name nid r = set_string v r.
Proof. unfold updated_for. by intros ->. Qed.

Lemma name_key_updated_for family_name nid r :
  name_key (updated_for family_name nid r) = name_key r.
Proof. unfold updated_for. by destruct (new_value family_name nid r). Qed.

Lemma updated_for_twice family_name nid r :
  updated_for family_name nid (updated_for family_name nid r)
  = updated_for family_name nid r.
Proof.
  destruct (new_value family_name nid r) as [v|] eqn:Hv.
  - rewrite !(updated_for_eq _ _ r v) by done.
    rewrite (updated_for_eq _ _ (set_string v r) v); [done|].
    by rewrite (new_value_key _ _ _ r).
  - assert (updated_for family_name nid r = r) as Hr
      by (unfold updated_for; by rewrite Hv).
    by rewrite !Hr.
Qed.

(** One pass over the records [rs], seen from the head of the table: the
    head is rewritten when its tuple comes up, and the records behind it
    see the steps for the other tuples. *)
Lemma foldl_update_record_cons family_name nid rs r names :
  foldl (fun t x => update_record family_name nid x t) (r :: names) rs
  = (if bool_decide (name_key r ∈ name_key <$> rs)
     then updated_for family_name nid r else r)
    :: foldl (fun t x => update_record family_name nid x t) names
         (filter (fun x => name_key x ≠ name_key r) rs).
Proof.
  revert r names. induction rs as [|x rs IH]; intros r names.
  { done. }
  rewrite fmap_cons, filter_cons. simpl foldl at 1.
  rewrite update_record_eq.
  destruct (decide (name_key x = name_key r)) as [Hx|Hx].
  - (* the step for the head's own tuple *)
    rewrite decide_False by (by intros ?).
    rewrite bool_decide_true by (rewrite Hx; apply list_elem_of_here).
    rewrite (new_value_key _ _ x r) by done.
    destruct (new_value family_name nid r) as [v|] eqn:Hv.
    + simpl. rewrite bool_decide_true by done.
      rewrite IH, name_key_set_string.
      rewrite <- (updated_for_eq family_name nid r v) by done.
      rewrite updated_for_twice. by case_bool_decide.
    + rewrite IH. f_equal. unfold updated_for. rewrite Hv.
      by case_bool_decide.
  - (* a step for another tuple *)
    rewrite decide_True by done.
    assert (bool_decide (name_key r ∈ name_key x :: (name_key <$> rs))
            = bool_decide (name_key r ∈ name_key <$> rs)) as ->.
    { apply bool_decide_ext. rewrite elem_of_cons. naive_solver. }
    simpl foldl at 2. rewrite update_record_eq.
    destruct (new_value family_name nid x) as [v|]; [|apply IH].
    simpl. rewrite bool_decide_false by (by intros ?). apply IH.
Qed.

Lemma elem_of_other_keys k kr rs :
  k ∈ name_key <$> filter (fun x => name_key x ≠ kr) rs
  ↔ k ∈ name_key <$> rs ∧ k ≠ kr.
Proof.
  rewrite !list_elem_of_fmap. split.
  - intros (x & -> & [Hx ?]%list_elem_of_filter). eauto.
  - intros [(x & -> & Hx) Hk]. exists x. split; [done|].
    by apply list_elem_of_filter.
Qed.

(** One pass over all records. *)
Lemma foldl_update_record_first family_name nid names seen rs :
  (∀ k, k ∈ name_key <$> rs ↔ k ∈ name_key <$> names ∧ k ∉ seen) →
  foldl (fun t x => update_record family_name nid x t) names rs
  = first_changed (updated_for family_name nid) seen names.
Proof.
  revert seen rs. induction names as [|r names IH]; intros seen rs Hrs.
  - destruct rs as [|x rs]; [done|]. exfalso.
    destruct (Hrs (name_key x)) as [Hx _].
    destruct Hx as [Hx _]; [rewrite fmap_cons; apply list_elem_of_here|].
    by apply elem_of_nil in Hx.
  - rewrite foldl_update_record_cons. cbn [first_changed]. f_equal.
    + assert (name_key r ∈ name_key <$> rs ↔ name_key r ∉ seen) as Hr.
      { rewrite Hrs, fmap_cons, elem_of_cons. naive_solver. }
      repeat case_bool_decide; naive_solver.
    + apply IH. intros k.
      rewrite elem_of_other_keys, elem_of_cons, Hrs, fmap_cons,
        elem_of_cons.
      naive_solver.
Qed.

Lemma first_changed_keys f seen names :
  (∀ r, name_key (f r) = name_key r) →
  name_key <$> first_changed f seen names = name_key <$> names.
Proof.
  intros Hf. revert seen. induction names as [|r names IH]; intros seen.
  { done. }
  cbn [first_changed]. rewrite !fmap_cons, IH.
  by case_bool_decide; rewrite ?Hf.
Qed.

Lemma first_changed_twice f g seen names :
  (∀ r, name_key (f r) = name_key r) →
  first_changed g seen (first_changed f seen names)
  = first_changed (g ∘ f) seen names.
Proof.
  intros Hf. revert seen. induction names as [|r names IH]; intros seen.
  { done. }
  cbn [first_changed].
  destruct (decide (name_key r ∈ seen)) as [Hr|Hr].
  - rewrite !(bool_decide_true (name_key r ∈ seen)) by done.
    by rewrite IH.
  - rewrite !(bool_decide_false (name_key r ∈ seen)) by done.
    rewrite Hf, bool_decide_false by done. by rewrite IH.
Qed.

Lemma first_changed_ext f g seen names :
  (∀ r, f r = g r) → first_changed f seen names = first_changed g seen names.
Proof.
  intros Hfg. revert seen. induction names as [|r names IH]; intros seen.
  { done. }
  cbn [first_changed]. by rewrite Hfg, IH.
Qed.

(** With distinct tuples every record is the first of its tuple. *)
Lemma first_changed_distinct f seen names :
  NoDup (name_key <$> names) →
  (∀ k, k ∈ name_key <$> names → k ∉ seen) →
  first_changed f seen names = f <$> names.
Proof.
  revert seen. induction names as [|r names IH]; intros seen Hnd Hseen.
  { done. }
  rewrite fmap_cons in Hnd. apply NoDup_cons in Hnd as [Hr Hnd].
  cbn [first_changed]. rewrite bool_decide_false.
  - rewrite fmap_cons. f_equal. apply IH; [done|].
    intros k Hk. rewrite not_elem_of_cons. split.
    + by intros ->.
    + apply Hseen. rewrite fmap_cons. by apply list_elem_of_further.
  - apply Hseen. rewrite fmap_cons. apply list_elem_of_here.
Qed.

(** The record at a given place: changed unless its tuple was seen. *)
Lemma first_changed_lookup f seen names i r :
  names !! i = Some r →
  first_changed f seen names !! i
  = Some (if bool_decide (name_key r ∈ seen ++ (name_key <$> take i names))
          then r else f r).
Proof.
  revert seen i. induction names as [|r0 names IH]; intros seen i;
    [done|].
  destruct i as [|i]; cbn [first_changed].
  - intros [= ->]. simpl. by rewrite app_nil_r.
  - rewrite !lookup_cons. intros Hi. rewrite (IH _ _ Hi). f_equal.
    rewrite firstn_cons, fmap_cons.
    rewrite (bool_decide_ext
               (name_key r ∈ (name_key r0 :: seen)
                              ++ (name_key <$> take i names))
               (name_key r ∈ seen ++ name_key r0
                              :: (name_key <$> take i names))); [done|].
    rewrite !elem_of_app, !elem_of_cons. tauto.
Qed.

(** The two passes together aim at [updated]. *)
Lemma updated_passes family_name r :
  updated_for family_name 16 (updated_for family_name 1 r)
  = updated family_name r.
Proof.
  unfold updated, updated_for, new_value.
  destruct (decide (nameID r = 1%Z)) as [H1|H1];
    destruct (decide (nameID r = 16%Z)) as [H16|H16]; try congruence.
  - rewrite (bool_decide_true (nameID r = 1%Z)) by done.
    rewrite (bool_decide_true (_ ∈ _)) by (rewrite H1; set_solver).
    destruct (isUnicode r); simpl.
    + by rewrite bool_decide_false by (simpl; congruence).
    + destruct (encode (record_encoding r) family_name); simpl.
      * by rewrite bool_decide_false by (simpl; congruence).
      * by rewrite bool_decide_false by (simpl; congruence).
  - rewrite (bool_decide_false (nameID r = 1%Z)) by done.
    rewrite (bool_decide_true (nameID r = 16%Z)) by done.
    rewrite (bool_decide_true (_ ∈ _)) by (rewrite H16; set_solver).
    destruct (isUnicode r); [done|].
    by destruct (encode (record_encoding r) family_name).
  - rewrite (bool_decide_false (nameID r = 1%Z)) by done.
    rewrite (bool_decide_false (nameID r = 16%Z)) by done.
    rewrite bool_decide_false; [done|].
    rewrite !elem_of_cons, elem_of_nil. naive_solver.
Qed.

(** One pass of lines 70-80. *)
Lemma pass_first_changed family_name nid names :
  for_in_names (length names) 0 (update_record family_name nid) names
  = first_changed (updated_for family_name nid) [] names.
Proof.
  rewrite for_in_names_foldl by lia. rewrite drop_0.
  apply foldl_update_record_first. intros k.
  rewrite elem_of_nil. naive_solver.
Qed.

(** Lines 69-80 in closed form: the first record of every tuple is
    brought to [updated], the others are kept. *)
Lemma apply_family_name_first family_name names :
  apply_family_name family_name names
  = first_changed (updated family_name) [] names.
Proof.
  unfold apply_family_name. simpl. rewrite !pass_first_changed.
  rewrite first_changed_twice by apply name_key_updated_for.
  apply first_changed_ext. intros r. apply updated_passes.
Qed.

(** With distinct tuples every record is brought to [updated]. *)
Lemma apply_family_name_distinct family_name names :
  distinct_keys names →
  apply_family_name family_name names = updated family_name <$> names.
Proof.
  intros Hnd. rewrite apply_family_name_first.
  apply first_changed_distinct; [done|]. intros k _. apply not_elem_of_nil.
Qed.

End Apply.

(** ** The whole run *)

Section Run.
Context `{Codecs} `{FontFiles} {stdout : Stdout}.
Implicit Types (names : list NameRecord) (record r : NameRecord).
Implicit Types (font : TTFont) (family_name override : pystr).
Implicit Types (fs : FS) (input_path output_path : pystr).

Lemma first_changed_Forall2 (P : NameRecord → NameRecord → Prop) f seen
    names :
  (∀ r, P r r) → (∀ r, P r (f r)) →
  Forall2 P names (first_changed f seen names).
Proof.
  intros Hrefl Hf. revert seen.
  induction names as [|r names IH]; intros seen; cbn [first_changed].
  - constructor.
  - constructor; [by case_bool_decide | apply IH].
Qed.

(** What [updated] can be: the record itself, or the record with the
    name (in a Unicode record) or its encoding as [string]. *)
Lemma updated_cases family_name r :
  updated family_name r = r ∨
  (nameID r ∈ [1; 16]%Z ∧
   ((isUnicode r = true ∧
     updated family_name r = set_string (PStr family_name) r) ∨
    (∃ b, isUnicode r = false ∧
          encode (record_encoding r) family_name = Some b ∧
          updated family_name r = set_string (PBytes b) r))).
Proof.
  unfold updated. case_bool_decide as Hid; [|by left].
  destruct (isUnicode r); [right; split; [done|]; by left|].
  destruct (encode (record_encoding r) family_name) as [b|]; [|by left].
  right. split; [done|]. right. by exists b.
Qed.

Lemma str_truthy_ne s : str_truthy s = true ↔ s ≠ [].
Proof. by destruct s. Qed.

(** With an override the name table is not read before line 70. *)
Lemma resolved_override font override :
  override ≠ [] →
  resolved_family_name font (Some override) = Ok (Some override).
Proof.
  intros Hov. unfold resolved_family_name. simpl.
  by apply str_truthy_ne in Hov as ->.
Qed.

(** Lines 68-80 once the name is known. *)
Lemma update_font_named font o family_name names :
  resolved_family_name font o = Ok (Some family_name) →
  family_name ≠ [] → name_table font = Ok names →
  update_font font o
  = Ok (Some family_name,
        mkFont (Ok (apply_family_name family_name names))).
Proof.
  intros Hres Hne Hnames. unfold update_font. rewrite Hres. simpl.
  apply str_truthy_ne in Hne as ->. unfold font_names. by rewrite Hnames.
Qed.

(** Lines 68-80 are skipped for [None] and for the empty string. *)
Lemma update_font_unnamed font o (n : option pystr) :
  resolved_family_name font o = Ok n →
  truthy n = false →
  update_font font o = Ok (n, font).
Proof.
  intros Hres Hf. unfold update_font. rewrite Hres. simpl.
  destruct n as [s|]; [|done]. simpl in Hf. by rewrite Hf.
Qed.

(** A name that is returned non-empty has been written to a name table. *)
Lemma update_font_named_inv font o family_name font' :
  update_font font o = Ok (Some family_name, font') →
  family_name ≠ [] →
  ∃ names, name_table font = Ok names ∧
           font' = mkFont (Ok (apply_family_name family_name names)).
Proof.
  unfold update_font. intros Hup Hne.
  destruct (resolved_family_name font o) as [[s|]|e]; simpl in Hup;
    [|done|done].
  destruct (str_truthy s) eqn:Hs.
  - unfold font_names in Hup.
    destruct (name_table font) as [names|]; simpl in Hup; [|done].
    injection Hup as -> <-. by exists names.
  - injection Hup as -> _. by destruct family_name.
Qed.

(** A run that opens its font, updates it and saves it returns the
    name. *)
Lemma run_ok input_path output_path o fs font (n : option pystr) font'
    u fs' :
  TTFont_open fs input_path = Ok font →
  update_font font o = Ok (n, font') →
  TTFont_save font' output_path fs = (Ok u, fs') →
  fix_font_family_names input_path output_path o fs = (Ok n, fs').
Proof.
  intros Hopen Hup Hsave. unfold fix_font_family_names.
  by rewrite Hopen, Hup, Hsave.
Qed.

(** A run that returns has opened a font, updated it and saved it. *)
Lemma run_ok_inv input_path output_path o fs (n : option pystr) fs' :
  fix_font_family_names input_path output_path o fs = (Ok n, fs') →
  ∃ font font' u,
    TTFont_open fs input_path = Ok font ∧
    update_font font o = Ok (n, font') ∧
    TTFont_save font' output_path fs = (Ok u, fs').
Proof.
  unfold fix_font_family_names. intros Hrun.
  destruct (TTFont_open fs input_path) as [font|e] eqn:Hopen; [|done].
  destruct (update_font font o) as [[n0 font']|e] eqn:Hup; [|done].
  destruct (TTFont_save font' output_path fs) as [[u|e] fs1] eqn:Hsave;
    [|done].
  injection Hrun as -> ->. by exists font, font', u.
Qed.

(** [updated] keeps the fields a record is identified and encoded by. *)
Lemma updated_fields family_name r :
  nameID (updated family_name r) = nameID r ∧
  isUnicode (updated family_name r) = isUnicode r ∧
  record_encoding (updated family_name r) = record_encoding r ∧
  name_key (updated family_name r) = name_key r.
Proof.
  destruct (updated_cases family_name r)
    as [->|[_ [[_ ->]|(b & _ & _ & ->)]]]; done.
Qed.

(** A run whose font opens ends the way [save] ends. *)
Lemma run_saves input_path output_path o fs font (n : option pystr) font' :
  TTFont_open fs input_path = Ok font →
  update_font font o = Ok (n, font') →
  fix_font_family_names input_path output_path o fs =
    match TTFont_save font' output_path fs with
    | (Ok _, fs') => (Ok n, fs')
    | (Raise e, fs') => (Raise e, fs')
    end.
Proof.
  intros Hopen Hup. unfold fix_font_family_names. by rewrite Hopen, Hup.
Qed.

(** C3, as the code has it.  After a run that returns a non-empty name,
    the font handed to [save] holds the records of the opened font after
    [apply_family_name].  When the records have distinct tuples, every
    record with nameID 1 or 16 holds the name if it is a Unicode record,
    holds the name in the record's own encoding if that encoding can
    represent it, and is a record of the opened font, unchanged,
    otherwise. *)
Theorem family_records_hold_name input_path output_path o fs family_name
    fs' :
  fix_font_family_names input_path output_path o fs
  = (Ok (Some family_name), fs') →
  family_name ≠ [] →
  ∃ font names u,
    TTFont_open fs input_path = Ok font ∧
    name_table font = Ok names ∧
    TTFont_save (mkFont (Ok (apply_family_name family_name names)))
      output_path fs = (Ok u, fs') ∧
    (distinct_keys names →
     apply_family_name family_name names = updated family_name <$> names ∧
     ∀ r', r' ∈ apply_family_name family_name names →
           nameID r' ∈ [1; 16]%Z →
       (isUnicode r' = true → string r' = PStr family_name) ∧
       (∀ b, isUnicode r' = false →
             encode (record_encoding r') family_name = Some b →
             string r' = PBytes b) ∧
       (isUnicode r' = false →
        encode (record_encoding r') family_name = None → r' ∈ names) ∧
       (isUnicode r' = true ∨
        is_Some (encode (record_encoding r') family_name) →
        toBytes r' = encode (record_encoding r') family_name)).
Proof.
  intros (font & font' & u & Hopen & Hup & Hsave)%run_ok_inv Hne.
  apply update_font_named_inv in Hup as (names & Hnames & ->); [|done].
  exists font, names, u. do 3 (split; [done|]).
  intros Hnd. split; [by apply apply_family_name_distinct|].
  rewrite apply_family_name_distinct by done.
  intros r' (r & -> & Hr)%list_elem_of_fmap.
  destruct (updated_fields family_name r) as (Hid & Hu & Henc & _).
  rewrite Hid, Hu, Henc. intros Hfam.
  unfold updated, toBytes. rewrite bool_decide_true by done.
  destruct (isUnicode r).
  - by repeat split.
  - destruct (encode (record_encoding r) family_name) as [b|] eqn:Hb.
    + split; [done|]. split; [by intros b' _ [= <-] |].
      split; [done|]. by intros _.
    + do 3 (split; [done|]). by intros [?|[b Hb']].
Qed.

(** C4.  A non-empty override is the resolved name as it stands, however
    many weight words it holds, and the run returns it when the font opens
    and saves.  What lines 69-80 write is the override: of the records
    with nameID 1 or 16, the first one of every tuple gets the override
    itself as its [string] when it is a Unicode record, and the override
    in the record's own encoding when that encoding has it, whatever the
    [string] was before; and every record of the table is as it was or
    has been written in one of these two ways. *)
Theorem override_verbatim font names override :
  override ≠ [] → name_table font = Ok names →
  resolved_family_name font (Some override) = Ok (Some override) ∧
  update_font font (Some override)
  = Ok (Some override,
        mkFont (Ok (apply_family_name override names))) ∧
  (∀ i r, names !! i = Some r → nameID r ∈ [1; 16]%Z →
          name_key r ∉ name_key <$> take i names →
     (isUnicode r = true →
      apply_family_name override names !! i
      = Some (set_string (PStr override) r)) ∧
     (∀ b, isUnicode r = false →
           encode (record_encoding r) override = Some b →
           apply_family_name override names !! i
           = Some (set_string (PBytes b) r))) ∧
  Forall2
    (fun r r' =>
       r' = r ∨
       (nameID r ∈ [1; 16]%Z ∧
        ((isUnicode r = true ∧ r' = set_string (PStr override) r) ∨
         (∃ b, isUnicode r = false ∧
               encode (record_encoding r) override = Some b ∧
               r' = set_string (PBytes b) r))))
    names (apply_family_name override names) ∧
  (∀ input_path output_path fs u fs',
     TTFont_open fs input_path = Ok font →
     TTFont_save (mkFont (Ok (apply_family_name override names)))
       output_path fs = (Ok u, fs') →
     fix_font_family_names input_path output_path (Some override) fs
     = (Ok (Some override), fs')).
Proof.
  intros Hov Hnames.
  pose proof (resolved_override font override Hov) as Hres.
  pose proof (update_font_named font _ _ _ Hres Hov Hnames) as Hup.
  split; [done|]. split; [done|]. split; [|split].
  - intros i r Hi Hfam Hfirst.
    rewrite apply_family_name_first, (first_changed_lookup _ _ _ _ _ Hi).
    cbn [app]. rewrite bool_decide_false by done.
    unfold updated. rewrite bool_decide_true by done.
    split; [by intros ->|]. by intros b -> ->.
  - rewrite apply_family_name_first. apply first_changed_Forall2.
    + intros r. by left.
    + intros r. apply updated_cases.
  - intros input_path output_path fs u fs' Hopen Hsave.
    by eapply run_ok.
Qed.

(** C5, as the code has it.  A record with nameID 1 or 16 that is not a
    Unicode record and whose encoding cannot represent the name stays as
    it is, at its place.  Every other record with nameID 1 or 16 that is
    a Unicode record or whose encoding can represent the name is updated,
    at its place, provided no record before it has its tuple: so is
    every such record of a table with distinct tuples.  A record whose
    tuple a record before it has stays as it is.  And the failed
    encoding raises nothing: the run goes on to [save] with the table so
    written, returns the name when [save] returns, and raises what [save]
    raises otherwise. *)
Theorem encoding_failure_tolerated names family_name record :
  record ∈ names →
  nameID record ∈ [1; 16]%Z → isUnicode record = false →
  encode (record_encoding record) family_name = None →
  (∀ i, names !! i = Some record →
        apply_family_name family_name names !! i = Some record) ∧
  (∀ i r, names !! i = Some r → nameID r ∈ [1; 16]%Z →
          distinct_keys names ∨ name_key r ∉ name_key <$> take i names →
     (isUnicode r = true →
      apply_family_name family_name names !! i
      = Some (set_string (PStr family_name) r)) ∧
     (∀ b, isUnicode r = false →
           encode (record_encoding r) family_name = Some b →
           apply_family_name family_name names !! i
           = Some (set_string (PBytes b) r))) ∧
  (∀ i r, names !! i = Some r → name_key r ∈ name_key <$> take i names →
          apply_family_name family_name names !! i = Some r) ∧
  (∀ input_path output_path o fs font,
     TTFont_open fs input_path = Ok font →
     name_table font = Ok names →
     resolved_family_name font o = Ok (Some family_name) →
     family_name ≠ [] →
     fix_font_family_names input_path output_path o fs =
       match TTFont_save (mkFont (Ok (apply_family_name family_name names)))
               output_path fs with
       | (Ok _, fs') => (Ok (Some family_name), fs')
       | (Raise e, fs') => (Raise e, fs')
       end).
Proof.
  intros Hin Hfam Huni Henc.
  assert (updated family_name record = record) as Hkept.
  { unfold updated. by rewrite bool_decide_true, Huni, Henc. }
  split; [|split; [|split]].
  - intros i Hi. rewrite apply_family_name_first.
    pose proof (first_changed_Forall2
                  (fun r r' => r' = r ∨ r' = updated family_name r)
                  (updated family_name) [] names) as Hall.
    eapply Forall2_lookup_l in Hall as (r' & -> & [->| ->]);
      [done|congruence|by left|by right|done].
  - intros i r Hi Hr Hfirst.
    assert (apply_family_name family_name names !! i
            = Some (updated family_name r)) as ->.
    { destruct Hfirst as [Hnd|Hfirst].
      - by rewrite apply_family_name_distinct, list_lookup_fmap, Hi.
      - rewrite apply_family_name_first,
          (first_changed_lookup _ _ _ _ _ Hi).
        cbn [app]. by rewrite bool_decide_false. }
    unfold updated. rewrite bool_decide_true by done. split.
    + by intros ->.
    + by intros b -> ->.
  - intros i r Hi Hseen.
    rewrite apply_family_name_first, (first_changed_lookup _ _ _ _ _ Hi).
    cbn [app]. by rewrite bool_decide_true.
  - intros input_path output_path o fs font Hopen Hnames Hres Hne.
    apply (run_saves _ _ _ _ font); [done|].
    by apply update_font_named.
Qed.

(** C6.  Whatever a run hands to [save], the records stand where they
    stood with their tuples, and a record whose nameID is neither 1 nor
    16 is the record that was read.  When no name is resolved ([None]:
    no override, and every record with nameID 16 or 1 skipped), the font
    is handed to [save] as it was opened, and the run returns [None] if
    [save] returns and raises what [save] raises otherwise. *)
Theorem other_records_untouched font o :
  (∀ (n : option pystr) font' names,
     update_font font o = Ok (n, font') → name_table font = Ok names →
     ∃ names', name_table font' = Ok names' ∧
       Forall2 (fun r r' => name_key r' = name_key r ∧
                            (nameID r ∉ [1; 16]%Z → r' = r))
         names names') ∧
  (resolved_family_name font o = Ok None →
   update_font font o = Ok (None, font) ∧
   ∀ input_path output_path fs,
     TTFont_open fs input_path = Ok font →
     fix_font_family_names input_path output_path o fs =
       match TTFont_save font output_path fs with
       | (Ok _, fs') => (Ok None, fs')
       | (Raise e, fs') => (Raise e, fs')
       end) ∧
  (∀ names,
     truthy o = false → name_table font = Ok names →
     all_skipped 16 names → all_skipped 1 names →
     resolved_family_name font o = Ok None).
Proof.
  split; [|split].
  - intros n font' names Hup Hnames.
    assert (Forall2 (fun r r' => name_key r' = name_key r ∧
                                 (nameID r ∉ [1; 16]%Z → r' = r))
              names names) as Hsame.
    { apply Forall_Forall2_diag, Forall_forall. done. }
    destruct n as [s|].
    + destruct (decide (s = [])) as [->|Hs].
      * unfold update_font in Hup.
        destruct (resolved_family_name font o) as [[[|]|]|]; simpl in Hup;
          try done.
        -- injection Hup as <-. eauto.
        -- unfold font_names in Hup. rewrite Hnames in Hup. done.
      * apply update_font_named_inv in Hup as (names0 & Hn0 & ->); [|done].
        assert (names0 = names) as -> by congruence.
        eexists. split; [done|].
        rewrite apply_family_name_first. apply first_changed_Forall2.
        -- done.
        -- intros r. split; [apply updated_fields|].
           intros Hr. unfold updated. by rewrite bool_decide_false.
    + unfold update_font in Hup.
      destruct (resolved_family_name font o) as [[s|]|]; simpl in Hup;
        try done.
      * destruct (str_truthy s); [|done].
        unfold font_names in Hup. rewrite Hnames in Hup. done.
      * injection Hup as <-. eauto.
  - intros Hres.
    pose proof (update_font_unnamed font o None Hres eq_refl) as Hup.
    split; [done|]. intros input_path output_path fs Hopen.
    by apply (run_saves _ _ _ _ font).
  - intros names Ho Hnames H16 H1. unfold resolved_family_name.
    rewrite Ho. simpl. unfold font_names. rewrite Hnames. simpl.
    unfold raw_family_name. apply scan_names_None in H16, H1.
    rewrite H16. simpl. by rewrite H1.
Qed.

(** C8.  When the font cannot be opened the run raises what opening
    raised, and the files are as they were: nothing was saved. *)
Theorem load_failure_no_output input_path output_path o fs e :
  TTFont_open fs input_path = Raise e →
  fix_font_family_names input_path output_path o fs = (Raise e, fs).
Proof. intros Hopen. unfold fix_font_family_names. by rewrite Hopen. Qed.


(** A single weight token behind a hyphen is stripped to the empty
    string. *)
Lemma strip_hyphen_token w :
  w ∈ WEIGHTS → strip_weight_tokens (str "-" ++ w) = [].
Proof.
  intros Hw. unfold WEIGHTS in Hw.
  repeat (apply elem_of_cons in Hw as [->|Hw]);
    try (by apply elem_of_nil in Hw); vm_compute; reflexivity.
Qed.

(** Behind a space this holds for the tokens that do not end in another
    token: for SemiBold, ExtraBold and ExtraLight the step of Bold or
    Light comes first and trims the space away. *)
Lemma strip_space_token w :
  w ∈ map str ["Regular"; "Bold"; "Italic"; "Medium"; "Light"; "Black";
               "Thin"]%string →
  strip_weight_tokens (str " " ++ w) = [].
Proof.
  intros Hw. simpl in Hw.
  repeat (apply elem_of_cons in Hw as [->|Hw]);
    try (by apply elem_of_nil in Hw); vm_compute; reflexivity.
Qed.

(** C10, as the code has it.  Without an override, when the name derived
    from the records is stripped to the empty string, the resolved name
    is the empty string: no record is changed, the font is handed to
    [save] as it was opened, and the run returns the empty string if
    [save] returns and raises what [save] raises otherwise. *)
Theorem empty_stripped_name font o names raw :
  truthy o = false → name_table font = Ok names →
  raw_family_name names = Ok (Some raw) →
  strip_weight_tokens raw = [] →
  resolved_family_name font o = Ok (Some []) ∧
  update_font font o = Ok (Some [], font) ∧
  ∀ input_path output_path fs,
    TTFont_open fs input_path = Ok font →
    fix_font_family_names input_path output_path o fs =
      match TTFont_save font output_path fs with
      | (Ok _, fs') => (Ok (Some []), fs')
      | (Raise e, fs') => (Raise e, fs')
      end.
Proof.
  intros Ho Hnames Hraw Hstrip.
  assert (resolved_family_name font o = Ok (Some [])) as Hres.
  { unfold resolved_family_name. rewrite Ho. simpl. unfold font_names.
    rewrite Hnames. simpl. rewrite Hraw. simpl.
    destruct raw as [|c raw]; [done|]. simpl. by rewrite Hstrip. }
  pose proof (update_font_unnamed font o (Some []) Hres eq_refl) as Hup.
  split; [done|]. split; [done|].
  intros input_path output_path fs Hopen.
  by apply (run_saves _ _ _ _ font).
Qed.

(** ** Running the script on its own output *)

Lemma to_disk_key r d : to_disk r = Some d → name_key d = name_key r.
Proof.
  unfold to_disk. destruct (toBytes r) as [b|]; simpl; [|done].
  by intros [= <-].
Qed.

(** A record written after an update is written the same way once more
    when the update is made on what was written. *)
Lemma to_disk_updated_again family_name r d :
  to_disk (updated family_name r) = Some d →
  to_disk (updated family_name d) = Some d.
Proof.
  destruct r as [v nid pid peid lid].
  unfold to_disk, toBytes, updated, record_encoding, isUnicode,
    set_string. simpl.
  destruct (bool_decide (nid ∈ [1; 16]%Z)) eqn:Hfam.
  - destruct ((pid =? 0)%Z || (pid =? 3)%Z && bool_decide (peid ∈ _))
      eqn:Huni.
    + simpl. destruct (encode (getEncoding pid peid lid) family_name)
        as [b|] eqn:Hb; simpl; [|done].
      intros [= <-]. simpl. rewrite Hfam, Huni. simpl. by rewrite Hb.
    + destruct (encode (getEncoding pid peid lid) family_name)
        as [b|] eqn:Hb; simpl.
      * intros [= <-]. simpl. rewrite Hfam, Huni, Hb. done.
      * destruct v as [b|s]; simpl.
        -- intros [= <-]. simpl. rewrite Hfam, Huni, Hb. done.
        -- destruct (encode (getEncoding pid peid lid) s) as [b|];
             simpl; [|done].
           intros [= <-]. simpl. rewrite Hfam, Huni, Hb. done.
  - destruct v as [b|s]; simpl.
    + intros [= <-]. simpl. by rewrite Hfam.
    + destruct (encode (getEncoding pid peid lid) s) as [b|]; simpl;
        [|done].
      intros [= <-]. simpl. by rewrite Hfam.
Qed.

(** C7, as the code has it.  Take a table with distinct tuples and a
    non-empty override.  The first run hands
    [apply_family_name override names1] to [save], which writes it as
    [disk1]; the second run opens that output, so that its records
    [names2] are those of [disk1] in the order the library reads them.
    Then the second run hands to [save] records that are written as the
    very records it read: the saved records, and so those with nameID 1
    or 16, are byte for byte the ones of the first output. *)
Theorem run_twice_same_records override names1 disk1 names2 :
  override ≠ [] → distinct_keys names1 →
  compile_names (apply_family_name override names1) = Some disk1 →
  names2 ≡ₚ disk1 →
  (∀ font1 font2,
     name_table font1 = Ok names1 → name_table font2 = Ok names2 →
     update_font font1 (Some override)
     = Ok (Some override,
           mkFont (Ok (apply_family_name override names1))) ∧
     update_font font2 (Some override)
     = Ok (Some override,
           mkFont (Ok (apply_family_name override names2)))) ∧
  ∃ disk2,
    compile_names (apply_family_name override names2) = Some disk2 ∧
    disk2 ≡ₚ disk1 ∧
    family_records disk2 ≡ₚ family_records disk1.
Proof.
  intros Hov Hnd Hdisk1 Hperm. split.
  { intros font1 font2 Hn1 Hn2.
    split; by apply update_font_named; [apply resolved_override| |]. }
  rewrite apply_family_name_distinct in Hdisk1 by done.
  unfold compile_names in Hdisk1. apply mapM_Some in Hdisk1.
  (* the tuples of the second run's records are distinct as well *)
  assert (name_key <$> disk1 = name_key <$> names1) as Hkeys.
  { apply Forall2_fmap_l in Hdisk1.
    clear Hnd Hperm. revert disk1 Hdisk1.
    induction names1 as [|r names1 IH]; intros disk1 Hall;
      inversion Hall as [|? d ? disk Hd Hrest]; subst; [done|].
    rewrite !fmap_cons. f_equal; [|by apply IH].
    apply to_disk_key in Hd. rewrite Hd.
    apply (updated_fields override r). }
  assert (distinct_keys names2) as Hnd2.
  { unfold distinct_keys. rewrite Hperm, Hkeys. done. }
  (* each of them is written back as it was read *)
  assert (Forall (fun d => to_disk (updated override d) = Some d) disk1)
    as Hfix.
  { apply Forall2_fmap_l in Hdisk1.
    eapply Forall2_Forall_r; [exact Hdisk1|].
    apply Forall_forall. intros r _ d. apply to_disk_updated_again. }
  exists names2. split; [|split].
  - rewrite apply_family_name_distinct by done.
    unfold compile_names. apply mapM_Some. apply Forall2_fmap_l.
    apply Forall_Forall2_diag. by rewrite Hperm.
  - done.
  - unfold family_records. by rewrite Hperm.
Qed.

End Run.

(** ** The script on concrete fonts *)

Section Examples.
Import Samples.

(** C1 as stated fails on [names_pref]: the first nameID-16 record
    decodes (to the empty string), a later nameID-16 record decodes to
    Pref, and yet the value returned is Fam, from the nameID-1 record. *)
Lemma first_preferred_name_not_returned :
  first_decoded 16 names_pref (Ok (Some [])) ∧
  win 16 (str "Pref") ∈ names_pref ∧
  decoded_value (win 16 (str "Pref")) = Ok (Some (str "Pref")) ∧
  raw_family_name names_pref = Ok (Some (str "Fam")) ∧
  ¬ (∀ names v, first_decoded 16 names (Ok (Some v)) →
                raw_family_name names = Ok (Some v)).
Proof.
  assert (first_decoded 16 names_pref (Ok (Some []))) as Hfirst.
  { exists [], mac16_empty, [win 1 (str "Fam"); win 16 (str "Pref")].
    repeat split; try done. constructor. }
  split; [done|]. split; [set_solver|]. split; [by vm_compute|].
  split; [by vm_compute|].
  intros Hclaim. specialize (Hclaim names_pref [] Hfirst).
  vm_compute in Hclaim. discriminate Hclaim.
Qed.

(** In a table whose first nameID-16 record is the Windows one, its value
    is returned. *)
Lemma raw_family_name_spec_witness :
  first_decoded 16 [win 1 (str "Fam"); win 16 (str "Pref")]
    (Ok (Some (str "Pref"))) ∧
  raw_family_name [win 1 (str "Fam"); win 16 (str "Pref")]
  = Ok (Some (str "Pref")).
Proof.
  assert (first_decoded 16 [win 1 (str "Fam"); win 16 (str "Pref")]
            (Ok (Some (str "Pref")))) as Hfirst.
  { exists [win 1 (str "Fam")], (win 16 (str "Pref")), [].
    repeat split; try done. by repeat constructor. }
  split; [done|].
  destruct (raw_family_name_spec [win 1 (str "Fam"); win 16 (str "Pref")])
    as (Hvalue & _).
  apply Hvalue; [done|]. by vm_compute.
Defined.

(** C3 as stated fails on [names_cafe] with the override Café: the run
    returns the name, and the saved ISO record with nameID 1 still holds
    the bytes of Cafe, its ASCII encoding having no é. *)
Lemma ascii_record_keeps_old_name :
  let run := fix_font_family_names (str "in.ttf") (str "out.ttf")
               (Some cafe) (files names_cafe) in
  run.1 = Ok (Some cafe) ∧
  TTFont_open run.2 (str "out.ttf")
  = Ok (mkFont (Ok [iso1_cafe; win 1 cafe; win 16 cafe])) ∧
  nameID iso1_cafe = 1%Z ∧
  toBytes iso1_cafe = Some (bytes_lit "Cafe") ∧
  encode (record_encoding iso1_cafe) cafe = None.
Proof. vm_compute. done. Qed.

Lemma family_records_hold_name_witness :
  let fs := files names_cafe in
  let run := fix_font_family_names (str "in.ttf") (str "out.ttf")
               (Some cafe) fs in
  run = (Ok (Some cafe), run.2) ∧ cafe ≠ [] ∧
  ∃ font names u,
    TTFont_open fs (str "in.ttf") = Ok font ∧
    name_table font = Ok names ∧
    TTFont_save (mkFont (Ok (apply_family_name cafe names)))
      (str "out.ttf") fs = (Ok u, run.2) ∧
    (distinct_keys names →
     apply_family_name cafe names = updated cafe <$> names ∧
     ∀ r', r' ∈ apply_family_name cafe names → nameID r' ∈ [1; 16]%Z →
       (isUnicode r' = true → string r' = PStr cafe) ∧
       (∀ b, isUnicode r' = false →
             encode (record_encoding r') cafe = Some b →
             string r' = PBytes b) ∧
       (isUnicode r' = false →
        encode (record_encoding r') cafe = None → r' ∈ names) ∧
       (isUnicode r' = true ∨ is_Some (encode (record_encoding r') cafe) →
        toBytes r' = encode (record_encoding r') cafe)).
Proof.
  intros fs run.
  assert (run = (Ok (Some cafe), run.2)) as Hrun
    by (vm_compute; reflexivity).
  assert (cafe ≠ []) as Hne by done.
  split; [exact Hrun|]. split; [exact Hne|].
  exact (family_records_hold_name _ _ _ _ _ _ Hrun Hne).
Defined.

(** An override that ends in a weight word is kept as it is; it is
    written to the Windows record as it stands and to the ISO record in
    ASCII. *)
Lemma override_verbatim_witness :
  let override := str "My Family Bold" in
  let font := mkFont (Ok names_cafe) in
  override ≠ [] ∧ name_table font = Ok names_cafe ∧
  resolved_family_name font (Some override) = Ok (Some override) ∧
  apply_family_name override names_cafe !! 0%nat
  = Some (set_string (PStr override) (win 16 (str "Pref"))) ∧
  apply_family_name override names_cafe !! 2%nat
  = Some (set_string (PBytes (bytes_lit "My Family Bold")) iso1_cafe) ∧
  (∀ fs u fs',
     TTFont_open fs (str "in.ttf") = Ok font →
     TTFont_save (mkFont (Ok (apply_family_name override names_cafe)))
       (str "out.ttf") fs = (Ok u, fs') →
     fix_font_family_names (str "in.ttf") (str "out.ttf") (Some override)
       fs = (Ok (Some override), fs')).
Proof.
  intros override font.
  assert (override ≠ []) as Hne by done.
  assert (name_table font = Ok names_cafe) as Hnames by reflexivity.
  destruct (override_verbatim font names_cafe override Hne Hnames)
    as (Hres & _ & Hwritten & _ & Hrun).
  split; [exact Hne|]. split; [exact Hnames|]. split; [exact Hres|].
  split; [|split].
  - apply (Hwritten 0%nat (win 16 (str "Pref")));
      [reflexivity|set_solver|apply not_elem_of_nil|reflexivity].
  - apply (Hwritten 2%nat iso1_cafe);
      [reflexivity|set_solver| |reflexivity|vm_compute; reflexivity].
    refine (bool_decide_unpack _ _). vm_compute. exact I.
  - intros fs u fs'. apply Hrun.
Defined.

(** C5 as stated fails on a table in which two records share their
    tuple.  The ISO record cannot hold Café and is kept; of the two
    Windows records with nameID 1 the first is written, and the second,
    a Unicode record with nameID 1 as well, still holds Fam in the saved
    font: [setName] finds the first record with the tuple. *)
Lemma second_record_of_tuple_not_updated :
  let names := [win 1 (str "Old"); win 1 (str "Fam"); iso1_cafe] in
  let run := fix_font_family_names (str "in.ttf") (str "out.ttf")
               (Some cafe) (files names) in
  iso1_cafe ∈ names ∧ nameID iso1_cafe ∈ [1; 16]%Z ∧
  isUnicode iso1_cafe = false ∧
  encode (record_encoding iso1_cafe) cafe = None ∧
  names !! 1%nat = Some (win 1 (str "Fam")) ∧
  nameID (win 1 (str "Fam")) = 1%Z ∧ isUnicode (win 1 (str "Fam")) = true ∧
  apply_family_name cafe names !! 1%nat = Some (win 1 (str "Fam")) ∧
  run.1 = Ok (Some cafe) ∧
  TTFont_open run.2 (str "out.ttf")
  = Ok (mkFont (Ok [iso1_cafe; win 1 cafe; win 1 (str "Fam")])) ∧
  ¬ (∀ names family_name record i r,
       record ∈ names → nameID record ∈ [1; 16]%Z →
       isUnicode record = false →
       encode (record_encoding record) family_name = None →
       names !! i = Some r → nameID r ∈ [1; 16]%Z → isUnicode r = true →
       apply_family_name family_name names !! i
       = Some (set_string (PStr family_name) r)).
Proof.
  intros names run.
  assert (iso1_cafe ∈ names) as Hin by set_solver.
  assert (nameID iso1_cafe ∈ [1; 16]%Z) as Hfam by set_solver.
  assert (encode (record_encoding iso1_cafe) cafe = None) as Henc
    by (vm_compute; reflexivity).
  do 2 (split; [done|]). split; [reflexivity|]. split; [exact Henc|].
  do 3 (split; [reflexivity|]).
  split; [vm_compute; reflexivity|]. split; [vm_compute; reflexivity|].
  split; [vm_compute; reflexivity|].
  intros Hclaim.
  specialize (Hclaim names cafe iso1_cafe 1%nat (win 1 (str "Fam"))
                Hin Hfam eq_refl Henc eq_refl).
  assert (nameID (win 1 (str "Fam")) ∈ [1; 16]%Z) as Hfam1 by set_solver.
  specialize (Hclaim Hfam1 eq_refl).
  vm_compute in Hclaim. discriminate Hclaim.
Qed.

(** The ISO record cannot hold Café: it is kept, the Windows records are
    written, and the run returns the name. *)
Lemma encoding_failure_tolerated_witness :
  iso1_cafe ∈ names_cafe ∧
  nameID iso1_cafe ∈ [1; 16]%Z ∧ isUnicode iso1_cafe = false ∧
  encode (record_encoding iso1_cafe) cafe = None ∧
  distinct_keys names_cafe ∧
  apply_family_name cafe names_cafe !! 2%nat = Some iso1_cafe ∧
  apply_family_name cafe names_cafe !! 0%nat
  = Some (set_string (PStr cafe) (win 16 (str "Pref"))) ∧
  (fix_font_family_names (str "in.ttf") (str "out.ttf") (Some cafe)
     (files names_cafe)).1 = Ok (Some cafe).
Proof.
  assert (distinct_keys names_cafe) as Hnd.
  { unfold distinct_keys. refine (bool_decide_unpack _ _). by vm_compute. }
  assert (iso1_cafe ∈ names_cafe) as Hin by set_solver.
  assert (nameID iso1_cafe ∈ [1; 16]%Z) as Hfam by set_solver.
  assert (isUnicode iso1_cafe = false) as Huni by reflexivity.
  assert (encode (record_encoding iso1_cafe) cafe = None) as Henc
    by (vm_compute; reflexivity).
  destruct (encoding_failure_tolerated names_cafe cafe iso1_cafe
              Hin Hfam Huni Henc) as (Hkept & Hothers & _ & Hrun).
  do 5 (split; [done|]). split; [|split].
  - by apply Hkept.
  - apply (Hothers 0%nat (win 16 (str "Pref")));
      [done|set_solver|by left|done].
  - rewrite (Hrun (str "in.ttf") (str "out.ttf") (Some cafe)
               (files names_cafe) (mkFont (Ok names_cafe)));
      [|reflexivity|reflexivity|reflexivity|done].
    vm_compute. reflexivity.
Defined.

(** A font with a full name only: nothing is resolved, and the font is
    saved as it was opened. *)
Lemma other_records_untouched_witness :
  let font := mkFont (Ok names_full_only) in
  resolved_family_name font None = Ok None ∧
  update_font font None = Ok (None, font) ∧
  (fix_font_family_names (str "in.ttf") (str "out.ttf") None
     (files names_full_only)).1 = Ok None.
Proof.
  intros font.
  destruct (other_records_untouched font None) as (_ & Hnone & Hskip).
  assert (resolved_family_name font None = Ok None) as Hres.
  { apply (Hskip names_full_only); try done; by repeat constructor. }
  destruct (Hnone Hres) as (Hup & Hrun).
  split; [exact Hres|]. split; [exact Hup|].
  rewrite (Hrun (str "in.ttf") (str "out.ttf") (files names_full_only))
    by reflexivity.
  vm_compute. reflexivity.
Defined.

(** C7 as stated fails on a font in which two records share their tuple.
    The first run writes Mid to the first of the two Windows family
    records; [save] sorts the records, which puts the record that was not
    written, Alpha, first; the second run then writes Mid to that one.
    The records with nameID 1 are Alpha and Mid after the first run, and
    Mid twice after the second. *)
Lemma second_run_writes_shared_tuple :
  let names := [win 1 (str "Zeta"); win 1 (str "Alpha")] in
  let mid := str "Mid" in
  let run1 := fix_font_family_names (str "in.ttf") (str "out.ttf")
                (Some mid) (files names) in
  let run2 := fix_font_family_names (str "out.ttf") (str "again.ttf")
                (Some mid) run1.2 in
  run1.1 = Ok (Some mid) ∧ run2.1 = Ok (Some mid) ∧
  TTFont_open run1.2 (str "out.ttf")
  = Ok (mkFont (Ok [win 1 (str "Alpha"); win 1 mid])) ∧
  TTFont_open run2.2 (str "again.ttf")
  = Ok (mkFont (Ok [win 1 mid; win 1 mid])) ∧
  ¬ (family_records [win 1 mid; win 1 mid]
     ≡ₚ family_records [win 1 (str "Alpha"); win 1 mid]) ∧
  ¬ (∀ override names1 disk1 names2,
       override ≠ [] →
       compile_names (apply_family_name override names1) = Some disk1 →
       names2 ≡ₚ disk1 →
       ∃ disk2,
         compile_names (apply_family_name override names2) = Some disk2 ∧
         family_records disk2 ≡ₚ family_records disk1).
Proof.
  intros names mid run1 run2.
  assert (∀ l, l ≡ₚ family_records [win 1 (str "Alpha"); win 1 mid] →
               l = [win 1 mid; win 1 mid] → False) as Hdiffer.
  { intros l Hperm ->.
    assert (win 1 (str "Alpha") ∈ [win 1 mid; win 1 mid]) as Hin.
    { rewrite Hperm. vm_compute. apply list_elem_of_here. }
    vm_compute in Hin.
    repeat (apply elem_of_cons in Hin as [Hin|Hin]; [discriminate Hin|]).
    by apply elem_of_nil in Hin. }
  do 4 (split; [vm_compute; reflexivity|]). split.
  - intros Hperm. by apply (Hdiffer _ Hperm).
  - intros Hclaim.
    destruct (Hclaim mid names [win 1 mid; win 1 (str "Alpha")]
                [win 1 (str "Alpha"); win 1 mid])
      as (disk2 & Hdisk2 & Hperm).
    + done.
    + vm_compute. reflexivity.
    + apply perm_swap.
    + apply (Hdiffer (family_records disk2)).
      * rewrite Hperm. unfold family_records.
        apply filter_Permutation, perm_swap.
      * vm_compute in Hdisk2. injection Hdisk2 as <-.
        vm_compute. reflexivity.
Qed.

(** The second run on the output of the first: the library has sorted
    the records, which here reverses their order. *)
Lemma run_twice_same_records_witness :
  let disk1 := [win 16 cafe; win 1 cafe; iso1_cafe] in
  let names2 := [iso1_cafe; win 1 cafe; win 16 cafe] in
  cafe ≠ [] ∧ distinct_keys names_cafe ∧
  compile_names (apply_family_name cafe names_cafe) = Some disk1 ∧
  names2 ≡ₚ disk1 ∧
  TTFont_open
    (fix_font_family_names (str "in.ttf") (str "out.ttf") (Some cafe)
       (files names_cafe)).2 (str "out.ttf")
  = Ok (mkFont (Ok names2)) ∧
  ∃ disk2,
    compile_names (apply_family_name cafe names2) = Some disk2 ∧
    disk2 ≡ₚ disk1 ∧
    family_records disk2 ≡ₚ family_records disk1.
Proof.
  intros disk1 names2.
  assert (cafe ≠ []) as Hne by done.
  assert (distinct_keys names_cafe) as Hnd.
  { unfold distinct_keys. refine (bool_decide_unpack _ _). by vm_compute. }
  assert (compile_names (apply_family_name cafe names_cafe) = Some disk1)
    as Hdisk by (vm_compute; reflexivity).
  assert (names2 ≡ₚ disk1) as Hperm
    by exact (reverse_Permutation disk1).
  destruct (run_twice_same_records cafe names_cafe disk1 names2
              Hne Hnd Hdisk Hperm) as (_ & Hsame).
  do 4 (split; [done|]). split; [vm_compute; reflexivity | exact Hsame].
Defined.

(** A path that is not there, and a file that is not a font. *)
Lemma load_failure_no_output_witness :
  let fs := files names_cafe in
  let missing := Exception "FileNotFoundError"
    (str "[Errno 2] No such file or directory: 'gone.ttf'") in
  let no_font := Exception "TTLibError"
    (str "Not a TrueType or OpenType font (bad sfntVersion)") in
  TTFont_open fs (str "gone.ttf") = Raise missing ∧
  fix_font_family_names (str "gone.ttf") (str "out.ttf") None fs
  = (Raise missing, fs) ∧
  TTFont_open fs (str "notes.txt") = Raise no_font ∧
  fix_font_family_names (str "notes.txt") (str "out.ttf") None fs
  = (Raise no_font, fs).
Proof.
  intros fs missing no_font.
  assert (TTFont_open fs (str "gone.ttf") = Raise missing) as Hgone
    by (vm_compute; reflexivity).
  assert (TTFont_open fs (str "notes.txt") = Raise no_font) as Hnotes
    by (vm_compute; reflexivity).
  split; [exact Hgone|]. split.
  { exact (load_failure_no_output _ (str "out.ttf") None _ _ Hgone). }
  split; [exact Hnotes|].
  exact (load_failure_no_output _ (str "out.ttf") None _ _ Hnotes).
Defined.



(** C10 as stated fails on the family name " SemiBold", one weight token
    behind a separator: the step of Bold trims the space away before the
    step of SemiBold looks for it, so the name SemiBold is resolved,
    written to the record and returned.  The name " Bold Italic" ends as
    Italic in the same way. *)
Lemma space_semibold_not_emptied :
  let run := fix_font_family_names (str "in.ttf") (str "out.ttf") None
               (files names_semibold) in
  raw_family_name names_semibold = Ok (Some (str " SemiBold")) ∧
  strip_weight_tokens (str " SemiBold") = str "SemiBold" ∧
  strip_weight_tokens (str " Bold Italic") = str "Italic" ∧
  run.1 = Ok (Some (str "SemiBold")) ∧
  TTFont_open run.2 (str "out.ttf")
  = Ok (mkFont (Ok [win 1 (str "SemiBold")])).
Proof. vm_compute. done. Qed.

Lemma empty_stripped_name_witness :
  let font := mkFont (Ok names_hyphen_bold) in
  let fs := files names_hyphen_bold in
  truthy None = false ∧ name_table font = Ok names_hyphen_bold ∧
  raw_family_name names_hyphen_bold = Ok (Some (str "-Bold")) ∧
  strip_weight_tokens (str "-Bold") = [] ∧
  update_font font None = Ok (Some [], font) ∧
  (fix_font_family_names (str "in.ttf") (str "out.ttf") None fs).1
  = Ok (Some []) ∧
  TTFont_open
    (fix_font_family_names (str "in.ttf") (str "out.ttf") None fs).2
    (str "out.ttf") = Ok font.
Proof.
  intros font fs.
  assert (raw_family_name names_hyphen_bold = Ok (Some (str "-Bold")))
    as Hraw by (vm_compute; reflexivity).
  assert (strip_weight_tokens (str "-Bold") = []) as Hstrip
    by (vm_compute; reflexivity).
  destruct (empty_stripped_name font None names_hyphen_bold (str "-Bold")
              eq_refl eq_refl Hraw Hstrip) as (_ & Hup & Hrun).
  do 4 (split; [done|]). split; [exact Hup|].
  rewrite (Hrun (str "in.ttf") (str "out.ttf") fs) by reflexivity.
  vm_compute. done.
Defined.

End Examples.

(** * Further properties of the script *)

(** ** The clean-up only deletes characters *)

Section CleanUp.
Implicit Types (s t old base name w : pystr) (c : N).

Lemma rev_sublist (l k : pystr) : l `sublist_of` k → rev l `sublist_of` rev k.
Proof.
  induction 1 as [|x l k _ IH|x l k _ IH]; simpl.
  - done.
  - by apply sublist_app.
  - by apply sublist_inserts_r.
Qed.

Lemma replace_from_sublist old s k :
  replace_from old [] s k `sublist_of` s.
Proof.
  revert k. induction s as [|c s IH]; intros k; simpl; [done|].
  destruct k as [|k].
  - destruct (startswith old (c :: s)); simpl.
    + apply sublist_cons, IH.
    + apply sublist_skip, IH.
  - apply sublist_cons, IH.
Qed.

Lemma replace_sublist old s : replace old [] s `sublist_of` s.
Proof.
  destruct old as [|x old]; [|apply replace_from_sublist].
  simpl. induction s as [|c s IH]; simpl; [done|]. by apply sublist_skip.
Qed.

Lemma lstrip_sublist s : lstrip s `sublist_of` s.
Proof.
  induction s as [|c s IH]; simpl; [done|].
  destruct (isspace c); [by apply sublist_cons | done].
Qed.

Lemma rstrip_sublist s : rstrip s `sublist_of` s.
Proof.
  unfold rstrip. rewrite <- (rev_involutive s) at 2.
  apply rev_sublist, lstrip_sublist.
Qed.

Lemma strip_sublist s : strip s `sublist_of` s.
Proof.
  unfold strip. etrans; [apply rstrip_sublist | apply lstrip_sublist].
Qed.

Lemma strip_weight_sublist name w : strip_weight name w `sublist_of` name.
Proof.
  unfold strip_weight. destruct (contains w name); [|done].
  etrans; [apply strip_sublist|].
  etrans; apply replace_sublist.
Qed.

(** The cleaned name is the raw name with characters deleted: nothing is
    added, replaced or reordered, and the name does not get longer. *)
Theorem strip_weight_tokens_deletes name :
  strip_weight_tokens name `sublist_of` name ∧
  (length (strip_weight_tokens name) ≤ length name)%nat.
Proof.
  assert (∀ ws s, foldl strip_weight s ws `sublist_of` s) as Hfold.
  { induction ws as [|w ws IH]; intros s; simpl; [done|].
    etrans; [apply IH | apply strip_weight_sublist]. }
  split; [apply Hfold|]. apply sublist_length, Hfold.
Qed.

(** ** Names without a weight token *)

Lemma foldl_strip_weight_absent ws name :
  Forall (fun w => contains w name = false) ws →
  foldl strip_weight name ws = name.
Proof.
  induction 1 as [|w ws Hw _ IH]; simpl; [done|].
  unfold strip_weight at 2. by rewrite Hw.
Qed.

(** A name in which none of the ten tokens occurs is returned as it is,
    leading and trailing whitespace included: line 62 is only reached
    for a token that occurs. *)
Theorem strip_weight_tokens_no_token name :
  (∀ w, w ∈ WEIGHTS → contains w name = false) →
  strip_weight_tokens name = name.
Proof.
  intros Hnone. apply foldl_strip_weight_absent, Forall_forall. done.
Qed.

Lemma strip_weight_tokens_no_token_witness :
  (∀ w, w ∈ WEIGHTS → contains w (str "  Noto Sans ") = false) ∧
  strip_weight_tokens (str "  Noto Sans ") = str "  Noto Sans ".
Proof.
  assert (∀ w, w ∈ WEIGHTS → contains w (str "  Noto Sans ") = false)
    as Hnone.
  { intros w Hw. unfold WEIGHTS in Hw.
    repeat (apply elem_of_cons in Hw as [->|Hw]);
      try (by apply elem_of_nil in Hw); vm_compute; reflexivity. }
  split; [exact Hnone|].
  exact (strip_weight_tokens_no_token _ Hnone).
Defined.

(** ** Trimming *)

Lemma lstrip_length s : (length (lstrip s) ≤ length s)%nat.
Proof. apply sublist_length, lstrip_sublist. Qed.

(** A string that [lstrip] leaves alone does not start with whitespace. *)
Lemma lstrip_fixed_head c s : lstrip (c :: s) = c :: s → isspace c = false.
Proof.
  simpl. destruct (isspace c); [|done]. intros Heq.
  pose proof (lstrip_length s) as Hlen. rewrite Heq in Hlen.
  simpl in Hlen. lia.
Qed.

Lemma lstrip_head c s : isspace c = false → lstrip (c :: s) = c :: s.
Proof. simpl. by intros ->. Qed.

Lemma lstrip_twice s : lstrip (lstrip s) = lstrip s.
Proof.
  induction s as [|c s IH]; simpl; [done|].
  destruct (isspace c) eqn:Hc; [done|]. simpl. by rewrite Hc.
Qed.

Lemma lstrip_snoc s c :
  isspace c = false → lstrip (s ++ [c]) = lstrip s ++ [c].
Proof.
  intros Hc. induction s as [|x s IH]; simpl; [by rewrite Hc|].
  by destruct (isspace x).
Qed.

Lemma lstrip_app s t : s ≠ [] → lstrip s = s → lstrip (s ++ t) = s ++ t.
Proof.
  destruct s as [|c s]; [done|]. intros _ Hs.
  apply lstrip_fixed_head in Hs. simpl. by rewrite Hs.
Qed.

Lemma rstrip_cons c s : isspace c = false → rstrip (c :: s) = c :: rstrip s.
Proof.
  intros Hc. unfold rstrip. simpl. rewrite lstrip_snoc by done.
  by rewrite rev_app_distr.
Qed.

Lemma rstrip_twice s : rstrip (rstrip s) = rstrip s.
Proof. unfold rstrip. by rewrite rev_involutive, lstrip_twice. Qed.

Lemma rstrip_app s t : t ≠ [] → rstrip t = t → rstrip (s ++ t) = s ++ t.
Proof.
  intros Ht Hfix. unfold rstrip in *. rewrite rev_app_distr.
  assert (lstrip (rev t) = rev t) as Hrev.
  { rewrite <- Hfix at 2. by rewrite rev_involutive. }
  rewrite lstrip_app; [by rewrite <- rev_app_distr, rev_involutive| |done].
  intros Hnil. apply Ht. rewrite <- (rev_involutive t). by rewrite Hnil.
Qed.

Lemma lstrip_rstrip s : lstrip s = s → lstrip (rstrip s) = rstrip s.
Proof.
  destruct s as [|c s]; [done|]. intros Hc%lstrip_fixed_head.
  rewrite rstrip_cons by done. by apply lstrip_head.
Qed.

(** [strip] leaves a stripped string alone. *)
Lemma strip_twice s : strip (strip s) = strip s.
Proof.
  unfold strip. rewrite lstrip_rstrip by apply lstrip_twice.
  apply rstrip_twice.
Qed.

(** As soon as one of the tokens occurs in the name, the cleaned name
    neither starts nor ends with whitespace. *)
Theorem strip_weight_tokens_trimmed name w :
  w ∈ WEIGHTS → contains w name = true →
  strip (strip_weight_tokens name) = strip_weight_tokens name.
Proof.
  intros Hw Hc.
  assert (∀ ws s,
            strip s = s ∨ Exists (fun w => contains w s = true) ws →
            strip (foldl strip_weight s ws) = foldl strip_weight s ws)
    as Hfold.
  { induction ws as [|x ws IH]; intros s Hs; simpl.
    - destruct Hs as [Hs|Hs]; [done|]. by apply Exists_nil in Hs.
    - apply IH. unfold strip_weight.
      destruct (contains x s) eqn:Hx.
      + left. apply strip_twice.
      + destruct Hs as [Hs|Hs]; [by left|].
        apply Exists_cons in Hs as [Hs|Hs]; [congruence | by right]. }
  apply Hfold. right. apply Exists_exists. by exists w.
Qed.

Lemma strip_weight_tokens_trimmed_witness :
  str "Bold" ∈ WEIGHTS ∧ contains (str "Bold") (str " ArialBold ") = true ∧
  strip (strip_weight_tokens (str " ArialBold "))
  = strip_weight_tokens (str " ArialBold ").
Proof.
  assert (str "Bold" ∈ WEIGHTS) as Hw by (unfold WEIGHTS; set_solver).
  assert (contains (str "Bold") (str " ArialBold ") = true) as Hc
    by (vm_compute; reflexivity).
  split; [exact Hw|]. split; [exact Hc|].
  exact (strip_weight_tokens_trimmed _ _ Hw Hc).
Defined.

End CleanUp.

(** ** Weight tokens at the end of a name *)

Section Suffix.
Implicit Types (s t base name w x p : pystr) (c : N).

Lemma strip_fixed s : strip s = s → lstrip s = s ∧ rstrip s = s.
Proof.
  intros Hs.
  assert (lstrip s = s) as Hl.
  { apply (anti_symm sublist); [apply lstrip_sublist|].
    rewrite <- Hs at 1. apply rstrip_sublist. }
  split; [done|]. unfold strip in Hs. by rewrite Hl in Hs.
Qed.

(** A prefix cannot reach across a character it does not hold. *)
Lemma startswith_app_outside p s t :
  head_outside p t = true → startswith p (s ++ t) = startswith p s.
Proof.
  destruct t as [|c t]; [by rewrite app_nil_r|].
  unfold head_outside, not_in. intros Hc%negb_true_iff%bool_decide_eq_false.
  revert s. induction p as [|y p IH]; intros s; [by destruct s|].
  apply not_elem_of_cons in Hc as [Hy Hp].
  destruct s as [|z s]; simpl.
  - apply andb_false_iff. left. apply N.eqb_neq. congruence.
  - by rewrite IH.
Qed.

Lemma contains_app_outside p s t :
  head_outside p t = true → contains p s = false →
  contains p (s ++ t) = contains p t.
Proof.
  intros Ht. induction s as [|c s IH]; intros Hs; [done|].
  simpl in Hs. apply orb_false_iff in Hs as [Hstart Hs].
  change ((c :: s) ++ t) with (c :: (s ++ t)).
  cbn [contains]. rewrite IH by done.
  change (c :: (s ++ t)) with ((c :: s) ++ t).
  by rewrite startswith_app_outside, Hstart.
Qed.

Lemma contains_startswith p s : startswith p s = true → contains p s = true.
Proof. intros Hp. destruct s; simpl in *; by rewrite Hp. Qed.

(** [replace] passes over a part of the string that holds no token. *)
Lemma replace_app_outside sep x s t :
  contains x s = false → head_outside x t = true →
  replace (sep :: x) [] (s ++ t) = s ++ replace (sep :: x) [] t.
Proof.
  intros Hs Ht. induction s as [|c s IH]; [done|].
  simpl in Hs. apply orb_false_iff in Hs as [_ Hs].
  change ((c :: s) ++ t) with (c :: (s ++ t)).
  rewrite replace_no_match; [by rewrite IH|done|].
  simpl. apply andb_false_iff. right.
  rewrite startswith_app_outside by done.
  destruct (startswith x s) eqn:Hx; [|done].
  apply contains_startswith in Hx. congruence.
Qed.

Lemma ends_trimmed_rstrip t : ends_trimmed t = true → rstrip t = t.
Proof.
  unfold ends_trimmed, rstrip. destruct (rev t) as [|c r] eqn:Hrev.
  - intros _. rewrite <- (rev_involutive t). by rewrite Hrev.
  - intros Hc%negb_true_iff. rewrite lstrip_head by done.
    by rewrite <- Hrev, rev_involutive.
Qed.

Lemma strip_app base t :
  base ≠ [] → strip base = base → ends_trimmed t = true →
  strip (base ++ t) = base ++ t.
Proof.
  intros Hne [Hl Hr]%strip_fixed Ht. unfold strip.
  rewrite lstrip_app by done.
  destruct t as [|c t]; [by rewrite app_nil_r|].
  apply rstrip_app; [done | by apply ends_trimmed_rstrip].
Qed.

(** One step of the loop on a name whose front part holds no token. *)
Lemma strip_weight_tail base t x :
  base ≠ [] → strip base = base → contains x base = false →
  tail_ok t x = true →
  strip_weight (base ++ t) x = base ++ tail_step t x.
Proof.
  intros Hne Hbase Hx. unfold tail_ok, tail_step, strip_weight.
  intros [Hhead Hok]%andb_true_iff.
  rewrite contains_app_outside by done.
  destruct (contains x t); [|done].
  apply andb_true_iff in Hok as [Hhead1 Hend].
  unfold tail_replaced in *.
  change (str " " ++ x) with (32 :: x) in *.
  change (str "-" ++ x) with (45 :: x) in *.
  rewrite !replace_app_outside by done.
  by apply strip_app.
Qed.

(** The loop on such a name. *)
Lemma strip_weight_tail_run base ws t t' :
  base ≠ [] → strip base = base →
  Forall (fun w => contains w base = false) ws →
  tail_run ws t = Some t' →
  foldl strip_weight (base ++ t) ws = base ++ t'.
Proof.
  intros Hne Hbase Hws. revert t.
  induction Hws as [|w ws Hw _ IH]; intros t; simpl.
  - by intros [= ->].
  - destruct (tail_ok t w) eqn:Hok; [|done]. intros Hrun.
    rewrite strip_weight_tail by done. by apply IH.
Qed.

Lemma strip_weight_tokens_suffix_for base t :
  base ≠ [] → strip base = base →
  (∀ w, w ∈ WEIGHTS → contains w base = false) →
  t ∈ weight_suffixes →
  strip_weight_tokens (base ++ t) = base.
Proof.
  intros Hne Hbase Hnone Ht.
  assert (Forall (fun t => tail_run WEIGHTS t = Some []) weight_suffixes)
    as Hall by (refine (bool_decide_unpack _ _); vm_compute; exact I).
  unfold strip_weight_tokens.
  rewrite (strip_weight_tail_run base WEIGHTS t []); try done.
  - apply app_nil_r.
  - by apply Forall_forall.
  - by eapply Forall_forall in Hall.
Qed.

(** A family name followed by one weight token, behind a space or a
    hyphen, is cleaned to the family name: the name must not be empty,
    start or end with whitespace, or hold a token itself. *)
Theorem strip_weight_tokens_suffix base t :
  base ≠ [] → strip base = base →
  (∀ w, w ∈ WEIGHTS → contains w base = false) →
  t ∈ weight_suffixes →
  strip_weight_tokens (base ++ t) = base.
Proof. apply strip_weight_tokens_suffix_for. Qed.

(** The same with two weight tokens, each behind a space or a hyphen, in
    any order. *)
Theorem strip_weight_tokens_two_suffixes base t1 t2 :
  base ≠ [] → strip base = base →
  (∀ w, w ∈ WEIGHTS → contains w base = false) →
  t1 ∈ weight_suffixes → t2 ∈ weight_suffixes →
  strip_weight_tokens (base ++ t1 ++ t2) = base.
Proof.
  intros Hne Hbase Hnone Ht1 Ht2.
  assert (Forall (fun t => tail_run WEIGHTS t = Some [])
            (t1 ← weight_suffixes; t2 ← weight_suffixes; [t1 ++ t2]))
    as Hall by (refine (bool_decide_unpack _ _); vm_compute; exact I).
  unfold strip_weight_tokens.
  rewrite (strip_weight_tail_run base WEIGHTS (t1 ++ t2) []); try done.
  - apply app_nil_r.
  - by apply Forall_forall.
  - eapply Forall_forall in Hall; [exact Hall|].
    apply list_elem_of_bind. exists t1. split; [|done].
    apply list_elem_of_bind. exists t2. split; [|done].
    apply list_elem_of_singleton. done.
Qed.

End Suffix.

Section SuffixExamples.

Lemma noto_sans_clean :
  str "Noto Sans" ≠ [] ∧ strip (str "Noto Sans") = str "Noto Sans" ∧
  ∀ w, w ∈ WEIGHTS → contains w (str "Noto Sans") = false.
Proof.
  split; [done|]. split; [vm_compute; reflexivity|].
  intros w Hw. unfold WEIGHTS in Hw.
  repeat (apply elem_of_cons in Hw as [->|Hw]);
    try (by apply elem_of_nil in Hw); vm_compute; reflexivity.
Defined.

Lemma strip_weight_tokens_suffix_witness :
  str " SemiBold" ∈ weight_suffixes ∧
  strip_weight_tokens (str "Noto Sans" ++ str " SemiBold")
  = str "Noto Sans".
Proof.
  destruct noto_sans_clean as (Hne & Hstrip & Hnone).
  assert (str " SemiBold" ∈ weight_suffixes) as Ht
    by (refine (bool_decide_unpack _ _); vm_compute; exact I).
  split; [exact Ht|].
  exact (strip_weight_tokens_suffix _ _ Hne Hstrip Hnone Ht).
Defined.

Lemma strip_weight_tokens_two_suffixes_witness :
  str "-ExtraLight" ∈ weight_suffixes ∧ str " Italic" ∈ weight_suffixes ∧
  strip_weight_tokens (str "Noto Sans" ++ str "-ExtraLight" ++ str " Italic")
  = str "Noto Sans".
Proof.
  destruct noto_sans_clean as (Hne & Hstrip & Hnone).
  assert (str "-ExtraLight" ∈ weight_suffixes) as Ht1
    by (refine (bool_decide_unpack _ _); vm_compute; exact I).
  assert (str " Italic" ∈ weight_suffixes) as Ht2
    by (refine (bool_decide_unpack _ _); vm_compute; exact I).
  split; [exact Ht1|]. split; [exact Ht2|].
  exact (strip_weight_tokens_two_suffixes _ _ _ Hne Hstrip Hnone Ht1 Ht2).
Defined.

End SuffixExamples.

(** ** Resolving the name: which records matter, and what raises *)

Section Resolve.
Context `{Codecs} `{FontFiles} {stdout : Stdout}.
Implicit Types (names : list NameRecord) (r : NameRecord) (font : TTFont).
Implicit Types (o : option pystr) (nid : Z).

Lemma scan_names_family nid names :
  nid ∈ [1; 16]%Z →
  scan_names nid (family_records names) = scan_names nid names.
Proof.
  intros Hnid. unfold family_records.
  induction names as [|r names IH]; [done|].
  rewrite filter_cons. destruct (decide (nameID r ∈ [1; 16]%Z)) as [Hr|Hr].
  - rewrite !scan_names_cons. by rewrite IH.
  - rewrite IH, scan_names_cons.
    rewrite bool_decide_false; [done|]. by intros <-.
Qed.

(** The derived name depends on the records with nameID 1 or 16 only:
    dropping every other record from the table changes neither the name
    nor the exception. *)
Theorem other_records_do_not_resolve names o :
  raw_family_name (family_records names) = raw_family_name names ∧
  resolved_family_name (mkFont (Ok (family_records names))) o
  = resolved_family_name (mkFont (Ok names)) o.
Proof.
  assert (raw_family_name (family_records names) = raw_family_name names)
    as Hraw.
  { unfold raw_family_name. rewrite !scan_names_family by set_solver.
    done. }
  split; [done|]. unfold resolved_family_name, font_names. simpl.
  by rewrite Hraw.
Qed.

(** Between opening the font and saving it, the run raises in these
    cases and in no other.  Reading [font['name'].names] raises, with or
    without an override: KeyError for a font without a name table, or
    what the library raises for a table it cannot make records of.  Or
    there is no override and deriving the name raises, which is
    [toUnicode] raising on the record that decides the scan for nameID
    16, or on the one that decides the scan for nameID 1 when the first
    scan gave no name.  The run raises that exception, and the files are
    as they were. *)
Theorem update_font_raises font o e :
  (update_font font o = Raise e ↔
   font_names font = Raise e ∨
   (truthy o = false ∧
    ∃ names, font_names font = Ok names ∧
             raw_family_name names = Raise e)) ∧
  (∀ names,
     raw_family_name names = Raise e ↔
     first_decoded 16 names (Raise e) ∨
     ((all_skipped 16 names ∨ first_decoded 16 names (Ok (Some []))) ∧
      first_decoded 1 names (Raise e))) ∧
  (∀ input_path output_path fs,
     TTFont_open fs input_path = Ok font →
     update_font font o = Raise e →
     fix_font_family_names input_path output_path o fs = (Raise e, fs)).
Proof.
  split; [|split].
  - unfold update_font, resolved_family_name, font_names.
    destruct (name_table font) as [names|e0] eqn:Hnames;
      destruct (truthy o) eqn:Ho; simpl.
    + destruct o as [s|]; [|done]. simpl in Ho. simpl. rewrite Ho. simpl.
      split; [done|]. intros [?|[? _]]; done.
    + destruct (raw_family_name names) as [n|e'] eqn:Hraw; simpl.
      * split.
        -- destruct (clean_family_name n) as [s|]; [|done].
           by destruct (str_truthy s).
        -- intros [?|(_ & names' & [= <-] & Hr)]; [done|].
           congruence.
      * split.
        -- intros [= <-]. right. split; [done|]. by exists names.
        -- intros [?|(_ & names' & [= <-] & Hr)]; [done|].
           congruence.
    + destruct o as [s|]; [|done]. simpl in Ho. simpl. rewrite Ho. simpl.
      split.
      * intros [= <-]. by left.
      * intros [[= <-]|[? _]]; done.
    + split.
      * intros [= <-]. by left.
      * intros [[= <-]|(_ & names' & ? & _)]; done.
  - intros names. unfold raw_family_name. split.
    + destruct (scan_names 16 names) as [fam|e16] eqn:H16; simpl.
      * destruct (truthy fam) eqn:Hfam; simpl; [done|].
        destruct (scan_names 1 names) as [found|e1] eqn:H1; simpl;
          [done|].
        intros [= <-]. right. split; [|by apply scan_names_first].
        destruct fam as [[|c s]|]; [|done|].
        -- right. by apply scan_names_first.
        -- left. by apply scan_names_None.
      * intros [= <-]. left. by apply scan_names_first.
    + intros [H16|[H16 H1]].
      * apply scan_names_first in H16; [|done]. by rewrite H16.
      * apply scan_names_first in H1; [|done]. destruct H16 as [H16|H16].
        -- apply scan_names_None in H16. rewrite H16. simpl.
           by rewrite H1.
        -- apply scan_names_first in H16; [|done]. rewrite H16. simpl.
           by rewrite H1.
  - intros input_path output_path fs Hopen Hup.
    unfold fix_font_family_names. by rewrite Hopen, Hup.
Qed.

(** Lines 92-98: an empty third argument is no override (the name is
    derived from the records and cleaned), and arguments after the third
    are not looked at. *)
Theorem main_arguments prog input_path output_path fs :
  main [prog; input_path; output_path; []] fs
  = main [prog; input_path; output_path] fs ∧
  ∀ override more,
    main (prog :: input_path :: output_path :: override :: more) fs
    = main [prog; input_path; output_path; override] fs.
Proof.
  split; [|done]. unfold main. simpl.
  unfold fix_font_family_names, update_font, resolved_family_name. done.
Qed.

End Resolve.

(** ** Writing the name: repeated records, repeated calls, termination *)

Section ApplyMore.
Context `{Codecs}.
Implicit Types (names : list NameRecord) (r : NameRecord).
Implicit Types (family_name : pystr) (nid : Z).

Lemma updated_twice family_name r :
  updated family_name (updated family_name r) = updated family_name r.
Proof.
  destruct r as [v nid pid peid lid].
  unfold updated, record_encoding, isUnicode, set_string. simpl.
  destruct (bool_decide (nid ∈ [1; 16]%Z)) eqn:Hfam; simpl;
    rewrite ?Hfam; [|done].
  destruct ((pid =? 0)%Z || (pid =? 3)%Z && bool_decide (peid ∈ _))
    eqn:Huni; simpl; rewrite ?Hfam, ?Huni; [done|].
  destruct (encode (getEncoding pid peid lid) family_name) as [b|]
    eqn:Hb; simpl; by rewrite ?Hfam, ?Huni, ?Hb.
Qed.

(** What lines 69-80 leave at each place of the table: a record whose
    tuple (nameID, platformID, platEncID, langID) a record before it
    has is kept as it is, since [setName] writes to the first record
    with the tuple; every other record is brought to [updated]. *)
Theorem apply_family_name_lookup family_name names i r :
  names !! i = Some r →
  apply_family_name family_name names !! i
  = Some (if bool_decide (name_key r ∈ name_key <$> take i names)
          then r else updated family_name r).
Proof.
  intros Hi. rewrite apply_family_name_first.
  by rewrite (first_changed_lookup _ _ _ _ _ Hi).
Qed.

(** Lines 69-80 made a second time, with the same name, change nothing
    more, whatever the table: also with records that share a tuple. *)
Theorem apply_family_name_twice family_name names :
  apply_family_name family_name (apply_family_name family_name names)
  = apply_family_name family_name names.
Proof.
  rewrite !apply_family_name_first.
  rewrite first_changed_twice by (intros r; apply updated_fields).
  apply first_changed_ext. intros r. apply updated_twice.
Qed.

(** The loop of line 70 ends: no call of [setName] made by the loop
    appends a record, so after one step for each record the end of the
    list is reached, and the table has as many records as before. *)
Theorem for_in_names_ends family_name nid fuel names :
  (length names ≤ fuel)%nat →
  for_in_names fuel 0 (update_record family_name nid) names
  = for_in_names (length names) 0 (update_record family_name nid) names ∧
  length (for_in_names fuel 0 (update_record family_name nid) names)
  = length names.
Proof.
  intros Hfuel.
  rewrite !for_in_names_foldl by lia. split; [done|].
  rewrite drop_0.
  rewrite (foldl_update_record_first family_name nid names [] names).
  - rewrite <- (length_fmap name_key), first_changed_keys, length_fmap;
      [done|]. intros r. apply name_key_updated_for.
  - intros k. rewrite elem_of_nil. naive_solver.
Qed.

End ApplyMore.

Section ApplyExamples.
Import Samples.

(** Two Windows family records with the same tuple: the first gets the
    name, the second keeps Fam. *)
Lemma apply_family_name_lookup_witness :
  let names := [win 1 (str "Old"); win 16 (str "Pref"); win 1 (str "Fam")] in
  names !! 2%nat = Some (win 1 (str "Fam")) ∧
  apply_family_name (str "New") names !! 2%nat = Some (win 1 (str "Fam")) ∧
  apply_family_name (str "New") names !! 0%nat
  = Some (set_string (PStr (str "New")) (win 1 (str "Old"))).
Proof.
  intros names.
  assert (names !! 2%nat = Some (win 1 (str "Fam"))) as H2 by reflexivity.
  assert (names !! 0%nat = Some (win 1 (str "Old"))) as H0 by reflexivity.
  split; [exact H2|]. split.
  - rewrite (apply_family_name_lookup (str "New") names 2 _ H2).
    vm_compute. reflexivity.
  - rewrite (apply_family_name_lookup (str "New") names 0 _ H0).
    vm_compute. reflexivity.
Defined.

Lemma for_in_names_ends_witness :
  (length names_cafe ≤ 7)%nat ∧
  for_in_names 7 0 (update_record cafe 1) names_cafe
  = for_in_names (length names_cafe) 0 (update_record cafe 1) names_cafe ∧
  length (for_in_names 7 0 (update_record cafe 1) names_cafe) = 3%nat.
Proof.
  assert (length names_cafe ≤ 7)%nat as Hfuel by (simpl; lia).
  split; [exact Hfuel|].
  exact (for_in_names_ends cafe 1 7 names_cafe Hfuel).
Defined.

End ApplyExamples.

(** ** From the record to the saved font *)

Section EndToEnd.
Context `{Codecs} `{FontFiles}.
Implicit Types (names : list NameRecord) (font : TTFont) (base t : pystr).

(** A font whose deciding family record reads as a clean family name
    followed by one weight token (behind a space or a hyphen), run
    without an override: the family name without the token is what is
    written to the records and what the run returns when the font saves.
    The deciding record is the first nameID-16 record that is not
    skipped, or the first such nameID-1 record when every nameID-16
    record is skipped. *)
Theorem run_strips_weight_suffix font names o base t :
  name_table font = Ok names → truthy o = false →
  first_decoded 16 names (Ok (Some (base ++ t))) ∨
  (all_skipped 16 names ∧ first_decoded 1 names (Ok (Some (base ++ t)))) →
  base ≠ [] → strip base = base →
  (∀ w, w ∈ WEIGHTS → contains w base = false) →
  t ∈ weight_suffixes →
  update_font font o
  = Ok (Some base, mkFont (Ok (apply_family_name base names))) ∧
  ∀ input_path output_path fs u fs',
    TTFont_open fs input_path = Ok font →
    TTFont_save (mkFont (Ok (apply_family_name base names)))
      output_path fs = (Ok u, fs') →
    fix_font_family_names input_path output_path o fs
    = (Ok (Some base), fs').
Proof.
  intros Hnames Ho Hfirst Hne Hbase Hnone Ht.
  assert (raw_family_name names = Ok (Some (base ++ t))) as Hraw.
  { unfold raw_family_name. destruct Hfirst as [H16|[H16 H1]].
    - apply scan_names_first in H16; [|done]. rewrite H16. simpl.
      by destruct base.
    - apply scan_names_None in H16. apply scan_names_first in H1; [|done].
      rewrite H16. simpl. by rewrite H1. }
  assert (resolved_family_name font o = Ok (Some base)) as Hres.
  { unfold resolved_family_name, font_names. rewrite Ho, Hnames. simpl.
    rewrite Hraw. simpl.
    assert (str_truthy (base ++ t) = true) as -> by (by destruct base).
    by rewrite (strip_weight_tokens_suffix_for base t). }
  pose proof (update_font_named font o base names Hres Hne Hnames) as Hup.
  split; [done|]. intros input_path output_path fs u fs' Hopen Hsave.
  by eapply run_ok.
Qed.

End EndToEnd.

Section EndToEndExamples.
Import Samples.

(** A font without a name table, with and without an override; and a
    font whose preferred family is a Windows record that holds one half
    of a UTF-16 surrogate pair, which [toUnicode] does not decode. *)
Lemma update_font_raises_witness :
  let font := mkFont (Raise KeyError_name) in
  let fs : gmap (list N) Py.file :=
    {[ str "in.ttf" := Py.FontFile font ]} in
  let broken := makeName (PBytes [Byte.xd8; Byte.x00]) 16 3 1 1033 in
  let decode_error := Exception "UnicodeDecodeError"
                        (str "codec can't decode bytes") in
  update_font font None = Raise KeyError_name ∧
  update_font font (Some (str "New")) = Raise KeyError_name ∧
  fix_font_family_names (str "in.ttf") (str "out.ttf") (Some (str "New")) fs
  = (Raise KeyError_name, fs) ∧
  first_decoded 16 [win 1 (str "Fam"); broken] (Raise decode_error) ∧
  update_font (mkFont (Ok [win 1 (str "Fam"); broken])) None
  = Raise decode_error.
Proof.
  intros font fs broken decode_error.
  destruct (update_font_raises font None KeyError_name) as [[_ Hnone] _].
  destruct (update_font_raises font (Some (str "New")) KeyError_name)
    as ([_ Hsome] & _ & Hrun).
  destruct (update_font_raises (mkFont (Ok [win 1 (str "Fam"); broken]))
              None decode_error) as ([_ Hdecode] & Hraw & _).
  assert (update_font font (Some (str "New")) = Raise KeyError_name) as Hup
    by (apply Hsome; by left).
  assert (first_decoded 16 [win 1 (str "Fam"); broken] (Raise decode_error))
    as Hfirst.
  { exists [win 1 (str "Fam")], broken, [].
    repeat split; try done. by repeat constructor. }
  split; [apply Hnone; by left|]. split; [exact Hup|]. split.
  { apply (Hrun (str "in.ttf") (str "out.ttf") fs);
      [reflexivity|exact Hup]. }
  split; [exact Hfirst|].
  apply Hdecode. right. split; [reflexivity|].
  exists [win 1 (str "Fam"); broken]. split; [reflexivity|].
  apply Hraw. by left.
Defined.

(** A font with the family Noto Sans Bold and no preferred family. *)
Lemma run_strips_weight_suffix_witness :
  let names := [win 1 (str "Noto Sans Bold");
                win 4 (str "Noto Sans Bold")] in
  let font := mkFont (Ok names) in
  all_skipped 16 names ∧
  first_decoded 1 names (Ok (Some (str "Noto Sans" ++ str " Bold"))) ∧
  update_font font None
  = Ok (Some (str "Noto Sans"),
        mkFont (Ok [set_string (PStr (str "Noto Sans"))
                        (win 1 (str "Noto Sans Bold"));
                      win 4 (str "Noto Sans Bold")])).
Proof.
  intros names font.
  destruct noto_sans_clean as (Hne & Hstrip & Hnone).
  assert (all_skipped 16 names) as H16 by (by repeat constructor).
  assert (first_decoded 1 names (Ok (Some (str "Noto Sans" ++ str " Bold"))))
    as H1.
  { exists [], (win 1 (str "Noto Sans Bold")),
      [win 4 (str "Noto Sans Bold")].
    repeat split; try done. constructor. }
  assert (str " Bold" ∈ weight_suffixes) as Ht
    by (refine (bool_decide_unpack _ _); vm_compute; exact I).
  split; [exact H16|]. split; [exact H1|].
  destruct (run_strips_weight_suffix font names None (str "Noto Sans")
              (str " Bold") eq_refl eq_refl (or_intror (conj H16 H1))
              Hne Hstrip Hnone Ht) as [Hup _].
  rewrite Hup. vm_compute. reflexivity.
Defined.

End EndToEndExamples.
